(** * Exam.py: the Countdown numbers game as a Z3 optimisation problem

    The program states two optimisation problems over integer and boolean
    unknowns and hands them to Z3's [Optimize] engine:
    [CountingStrategy] (the plain game) and [CountingStrategyResilient]
    (the game against an adversary who replaces the last operand by a
    value in 1..10).

    The embedding follows the program text.  A valuation of the unknowns
    the program declares is a record of tables indexed like the Python
    lists that hold them; every formula passed to [opt.add] is a boolean
    function of the valuation; every term passed to [opt.minimize] is an
    integer function of it.  Z3 itself is a library
    outside the repository: module [Z3] gives the meaning of the term
    constructors the program uses and the contract of [Optimize]. *)

From Stdlib Require Import String ZArith List Bool Lia Classical.
From Stdlib Require Import Permutation FinFun.
Import ListNotations.
Open Scope Z_scope.

(** Python's [range(a, b)] over list positions. *)
Definition range (a b : nat) : list nat := seq a (b - a).

(** ** The Z3 constructs used by the program *)

Module Z3.

(** Arrays from Int to Int are total maps. *)
Definition IntArray := Z -> Z.

Definition K (d : Z) : IntArray := fun _ => d.

Definition Store (a : IntArray) (i v : Z) : IntArray :=
  fun j => if j =? i then v else a j.

Definition Select (a : IntArray) (i : Z) : Z := a i.

(** [Abs(x)] is [If(x >= 0, x, -x)]. *)
Definition Abs (x : Z) : Z := if x >=? 0 then x else - x.

(** Integer [/] and [%] are SMT-LIB's [div] and [mod]: the remainder is
    never negative.  For a zero divisor Z3 leaves both unconstrained; the
    program only ever evaluates them under the guard [n_used != 0] or
    with a literal in 1..10, so the value chosen here for that case plays
    no role. *)
Definition div (x y : Z) : Z := Z.sgn y * (x / Z.abs y).

Definition mod_ (x y : Z) : Z := x mod Z.abs y.

Definition Sum (ts : list Z) : Z := fold_right Z.add 0 ts.

Definition And (ts : list bool) : bool := forallb (fun t => t) ts.

Definition Or (ts : list bool) : bool := existsb (fun t => t) ts.

Definition Implies (a b : bool) : bool := implb a b.

(** *** The contract of [Optimize]

    [assertions] is the conjunction of all formulas given to [opt.add],
    [objectives] the terms given to [opt.minimize], in call order.  With
    several objectives Z3 minimises lexicographically (its default
    priority).  [check] answers [sat] together with a model that
    satisfies the assertions and whose objective vector no other model
    beats; it answers [unsat] only when no model exists; [unknown]
    promises nothing. *)
Section Optimize.
Variable Model : Type.
Variable assertions : Model -> bool.
Variable objectives : list (Model -> Z).

Fixpoint lex_le (xs ys : list Z) : Prop :=
  match xs, ys with
  | x :: xs', y :: ys' => x < y \/ (x = y /\ lex_le xs' ys')
  | _, _ => True
  end.

Definition objective_values (m : Model) : list Z :=
  map (fun f => f m) objectives.

Definition optimal (m : Model) : Prop :=
  assertions m = true /\
  forall m', assertions m' = true ->
             lex_le (objective_values m) (objective_values m').

Inductive CheckSatResult : Type :=
| sat (m : Model)
| unsat
| unknown.

Definition check (r : CheckSatResult) : Prop :=
  match r with
  | sat m => optimal m
  | unsat => forall m, assertions m = false
  | unknown => True
  end.
End Optimize.

Arguments sat {Model} m.
Arguments unsat {Model}.
Arguments unknown {Model}.

End Z3.

Import Z3.

(** ** Unknowns shared by both encodings

    The Python lists [ids], [steps], [ops] and [vals] hold Z3 constants; a
    model gives each a value.  Fields are indexed like the Python lists:
    [ids m i] is the value of [id_i], [steps m i] of [step_done_i],
    [vals m i] of [res_i], and [ops m i] the value of [op_(i+1)], since
    [ops] is built over [range(1,6)].  Only the positions the lists have
    (0..5, and 0..4 for [ops]) are ever read. *)
Record Model : Type := mkModel {
  ids : nat -> Z;
  steps : nat -> bool;
  ops : nat -> Z;
  vals : nat -> Z
}.

(** [arr = K(IntSort(), 0)] followed by [Store(arr, i, v)] for every
    [(i, v)] of [enumerate(numbers)]. *)
Fixpoint store_all (a : IntArray) (i : Z) (numbers : list Z) : IntArray :=
  match numbers with
  | [] => a
  | v :: rest => store_all (Store a i v) (i + 1) rest
  end.

Definition arr (numbers : list Z) : IntArray := store_all (K 0) 0 numbers.

(** The inner function [apply], identical in both solvers: a formula
    relating [val_next] to [val_now]. *)
Definition apply (op_now val_now val_next : Z) (step : bool) (n_used : Z)
  : bool :=
  if step then
    if op_now =? 0 then val_next =? val_now + n_used
    else if op_now =? 1 then val_next =? val_now - n_used
    else if op_now =? 2 then val_next =? val_now * n_used
    else And [negb (n_used =? 0);
              mod_ val_now n_used =? 0;
              val_next =? div val_now n_used]
  else val_next =? val_now.

(** *** The constraint groups, in program order *)

Definition first_value (numbers : list Z) (m : Model) : bool :=
  vals m 0%nat =? Select (arr numbers) (ids m 0%nat).

Definition ids_in_range (m : Model) : bool :=
  forallb (fun i => And [ids m i >=? 0; ids m i <? 6]) (range 0 6).

Definition ops_in_range (m : Model) : bool :=
  forallb (fun i => And [ops m i >=? 0; ops m i <? 4]) (range 0 5).

Definition steps_prefix (m : Model) : bool :=
  forallb (fun i => if Nat.eqb i 0 then true
                    else Implies (steps m i) (steps m (i - 1)%nat))
          (range 0 6).

Definition ids_distinct (m : Model) : bool :=
  forallb (fun i =>
    forallb (fun j =>
      let c1 := And [steps m i; steps m j] in
      let c2 := negb (ids m i =? ids m j) in
      Implies c1 c2) (range (i + 1) 6)) (range 0 6).

Definition transition (numbers : list Z) (m : Model) (k : nat) : bool :=
  if steps m k
  then apply (ops m (k - 1)%nat) (vals m (k - 1)%nat) (vals m k) true
             (Select (arr numbers) (ids m k))
  else vals m k =? vals m (k - 1)%nat.

Definition transitions (numbers : list Z) (m : Model) : bool :=
  forallb (transition numbers m) (range 1 6).

Definition initial_step (m : Model) : bool := Bool.eqb (steps m 0%nat) true.

(** *** Objective terms *)

Definition used_count (m : Model) : Z :=
  Sum (map (fun k => if steps m k then 1 else 0) (range 0 6)).

Definition dist_to_target (target : Z) (m : Model) : Z :=
  Abs (target - vals m 5%nat).

(** ** The report printed for a model

    One constructor per [print] call of the program.  The lookup in the
    dictionary [OPERATION_IDS] fails with a [KeyError] for a missing key,
    hence the option. *)
Inductive line : Type :=
| Initial_number (n : Z)
| Step (j : nat) (operator : string) (number result : Z)
| Final_number (n : Z)
| Distance_from_goal (d : Z)
| Distance_after_attack (d : Z).

Definition OPERATION_IDS (code : Z) : option string :=
  if code =? 0 then Some "+"%string
  else if code =? 1 then Some "-"%string
  else if code =? 2 then Some "*"%string
  else if code =? 3 then Some "/"%string
  else None.

(** The loop [for j in range(1, 6)] with its [break] at the first step
    that was not done. *)
Fixpoint print_steps (numbers : list Z) (m : Model) (js : list nat)
  : option (list line) :=
  match js with
  | [] => Some []
  | j :: rest =>
      if steps m j then
        match OPERATION_IDS (ops m (j - 1)%nat) with
        | None => None
        | Some operator =>
            let number := Select (arr numbers) (ids m j) in
            match print_steps numbers m rest with
            | None => None
            | Some ls => Some (Step j operator number (vals m j) :: ls)
            end
        end
      else Some []
  end.

(** What a call leaves on standard output, or the exception it dies of. *)
Inductive outcome : Type :=
| Printed (ls : list line)
| KeyError.

(** ** [CountingStrategy] *)

Module Plain.

Definition constraints (numbers : list Z) (m : Model) : bool :=
  And [first_value numbers m;
       ids_in_range m;
       ops_in_range m;
       steps_prefix m;
       ids_distinct m;
       transitions numbers m;
       initial_step m].

(** The two [opt.minimize] calls. *)
Definition objectives (target : Z) : list (Model -> Z) :=
  [dist_to_target target;
   fun m => if dist_to_target target m =? 0 then used_count m else 0].

(** [m] can be the model read back after [opt.check() == sat]. *)
Definition returns (numbers : list Z) (target : Z) (m : Model) : Prop :=
  check Model (constraints numbers) (objectives target) (sat m).

Definition print_model (numbers : list Z) (target : Z) (m : Model)
  : outcome :=
  match print_steps numbers m (range 1 6) with
  | None => KeyError
  | Some ls =>
      Printed (Initial_number (Select (arr numbers) (ids m 0%nat))
               :: ls
               ++ [Final_number (vals m 5%nat);
                   Distance_from_goal (dist_to_target target m)])
  end.

(** The whole function: build, optimise, print when [sat]. *)
Definition CountingStrategy (numbers : list Z) (target : Z)
           (out : outcome) : Prop :=
  exists r, check Model (constraints numbers) (objectives target) r /\
            out = match r with
                  | sat m => print_model numbers target m
                  | _ => Printed []
                  end.

End Plain.

(** ** [CountingStrategyResilient] *)

(** The resilient solver declares, besides the shared unknowns, [last_op],
    one [att_res_a] and one [att_dist_a] per attack [a], and [worst_dist].
    The attack tables are indexed by the attack value. *)
Record ModelR : Type := mkModelR {
  base : Model;
  last_op : Z;
  att_res : Z -> Z;
  att_dist : Z -> Z;
  worst_dist : Z
}.

Module Resilient.

(** [vals_arr] and [ops_arr]: the partial results and the operator codes
    copied into Z3 arrays so that [last_op] can index them. *)
Definition vals_arr (m : ModelR) : IntArray :=
  fold_left (fun a i => Store a (Z.of_nat i) (vals (base m) i))
            (range 0 6) (K 0).

Definition ops_arr (m : ModelR) : IntArray :=
  fold_left (fun a i => Store a (Z.of_nat i) (ops (base m) i))
            (range 0 5) (K 0).

(** One entry per turn [k]: [last_op] is [k], step [k] is executed and
    the next one (if there is one) is not. *)
Definition cases (m : ModelR) : list bool :=
  map (fun k =>
         let tail := if Nat.eqb k 5 then true
                     else negb (steps (base m) (k + 1)%nat) in
         And [last_op m =? Z.of_nat k; steps (base m) k; tail])
      (range 1 6).

Definition pre_last_val (m : ModelR) : Z :=
  Select (vals_arr m) (last_op m - 1).

Definition last_op_code (m : ModelR) : Z :=
  Select (ops_arr m) (last_op m - 1).

(** [range(1, 11)] *)
Definition attacks : list Z := map Z.of_nat (range 1 11).

Definition legal_attack (m : ModelR) (attack : Z) : bool :=
  Or [negb (last_op_code m =? 3); mod_ (pre_last_val m) attack =? 0].

(** The two formulas added per attack. *)
Definition attack_constraint (target : Z) (m : ModelR) (attack : Z)
  : bool :=
  And [Implies (legal_attack m attack)
               (apply (last_op_code m) (pre_last_val m) (att_res m attack)
                      true attack);
       att_dist m attack =?
         (if legal_attack m attack
          then Abs (target - att_res m attack) else -1)].

Definition worst_is_upper_bound (m : ModelR) : bool :=
  forallb (fun a => worst_dist m >=? att_dist m a) attacks.

Definition worst_is_attained (m : ModelR) : bool :=
  Or (map (fun a => And [legal_attack m a; worst_dist m =? att_dist m a])
          attacks).

Definition constraints (numbers : list Z) (target : Z) (m : ModelR)
  : bool :=
  And [first_value numbers (base m);
       ids_in_range (base m);
       ops_in_range (base m);
       steps_prefix (base m);
       ids_distinct (base m);
       transitions numbers (base m);
       Or (cases m);
       initial_step (base m);
       Bool.eqb (steps (base m) 1%nat) true;
       And [last_op m >=? 1; last_op m <=? 5];
       forallb (attack_constraint target m) attacks;
       worst_is_upper_bound m;
       worst_is_attained m].

Definition objectives : list (ModelR -> Z) :=
  [worst_dist;
   fun m => if worst_dist m =? 0 then used_count (base m) else 0].

Definition returns (numbers : list Z) (target : Z) (m : ModelR) : Prop :=
  check ModelR (constraints numbers target) objectives (sat m).

Definition print_model (numbers : list Z) (target : Z) (m : ModelR)
  : outcome :=
  match print_steps numbers (base m) (range 1 6) with
  | None => KeyError
  | Some ls =>
      Printed (Initial_number (Select (arr numbers) (ids (base m) 0%nat))
               :: ls
               ++ [Final_number (vals (base m) 5%nat);
                   Distance_from_goal (dist_to_target target (base m));
                   Distance_after_attack (worst_dist m)])
  end.

Definition CountingStrategyResilient (numbers : list Z) (target : Z)
           (out : outcome) : Prop :=
  exists r, check ModelR (constraints numbers target) objectives r /\
            out = match r with
                  | sat m => print_model numbers target m
                  | _ => Printed []
                  end.

End Resilient.

(** ** Reading the step function off the formula

    [apply_result] is the value the formula [apply] pins [val_next] to
    when the step is executed; [division_ok] is the side condition of the
    division case. *)
Definition apply_result (op_now val_now n_used : Z) : Z :=
  if op_now =? 0 then val_now + n_used
  else if op_now =? 1 then val_now - n_used
  else if op_now =? 2 then val_now * n_used
  else div val_now n_used.

Definition division_ok (val_now n_used : Z) : Prop :=
  n_used <> 0 /\ mod_ val_now n_used = 0.

(** ** The constraints as propositions

    [feasible] and [feasibleR] list what the formulas added to the solver
    say, one field per group; the lemmas [constraints_feasible] below
    show that they say exactly that. *)
Record feasible (numbers : list Z) (m : Model) : Prop := {
  f_first : vals m 0%nat = Select (arr numbers) (ids m 0%nat);
  f_ids : forall i, (i < 6)%nat -> 0 <= ids m i < 6;
  f_ops : forall i, (i < 5)%nat -> 0 <= ops m i < 4;
  f_prefix : forall i, (1 <= i < 6)%nat ->
                       steps m i = true -> steps m (i - 1)%nat = true;
  f_distinct : forall i j, (i < j < 6)%nat ->
                           steps m i = true -> steps m j = true ->
                           ids m i <> ids m j;
  f_trans : forall k, (1 <= k < 6)%nat -> transition numbers m k = true;
  f_init : steps m 0%nat = true
}.

Record feasibleR (numbers : list Z) (target : Z) (m : ModelR) : Prop := {
  r_base : feasible numbers (base m);
  r_case : exists k, (1 <= k < 6)%nat /\ last_op m = Z.of_nat k /\
                     steps (base m) k = true /\
                     (k <> 5%nat -> steps (base m) (k + 1)%nat = false);
  r_step1 : steps (base m) 1%nat = true;
  r_last : 1 <= last_op m <= 5;
  r_attack : forall a, 1 <= a <= 10 ->
      (Resilient.legal_attack m a = true ->
       apply (Resilient.last_op_code m) (Resilient.pre_last_val m)
             (att_res m a) true a = true) /\
      att_dist m a = (if Resilient.legal_attack m a
                      then Abs (target - att_res m a) else -1);
  r_upper : forall a, 1 <= a <= 10 -> att_dist m a <= worst_dist m;
  r_attained : exists a, 1 <= a <= 10 /\
                         Resilient.legal_attack m a = true /\
                         worst_dist m = att_dist m a
}.

(** ** The worst case in the words of the specification

    The maximum, over the legal attacks among 1..10, of the distance
    between the target and the last step redone with the attack value as
    its operand. *)
Definition max_of (ds : list Z) : option Z :=
  match ds with
  | [] => None
  | d :: rest => Some (fold_left Z.max rest d)
  end.

Definition spec_legal (lastOperator preLastValue a : Z) : bool :=
  negb (lastOperator =? 3) || (preLastValue mod a =? 0).

Definition spec_worstDist (target lastOperator preLastValue : Z)
  : option Z :=
  max_of (map (fun a => Z.abs (target -
                               apply_result lastOperator preLastValue a))
              (filter (spec_legal lastOperator preLastValue)
                      [1; 2; 3; 4; 5; 6; 7; 8; 9; 10])).

(** How many executed steps take their operand from pool position [p]. *)
Definition times_used (m : Model) (p : Z) : nat :=
  length (filter (fun k => steps m k && (ids m k =? p)) (range 0 6)).

(** The pool as the solver sees it: positions 0..5, a missing position
    reading as the array's default 0, positions from 6 on out of reach. *)
Definition pool6 (numbers : list Z) : list Z :=
  map (fun i => nth i numbers 0) (range 0 6).

(** ** Sample assignments *)

(** Step 0 alone, on pool position [i]. *)
Definition only_step_0 (numbers : list Z) (i : Z) : Model :=
  let v := Select (arr numbers) i in
  mkModel (fun k => if Nat.eqb k 0 then i else 0)
          (fun k => Nat.eqb k 0)
          (fun _ => 0)
          (fun _ => v).

Definition example_pool : list Z := [1; 3; 5; 8; 10; 50].

(** Target 50 with the example pool: pick the 50 and stop. *)
Definition pick_50 : Model := only_step_0 example_pool 5.

(** Steps 0 and 1 on pool positions 0 and 1, joined by an addition, with
    the attack unknowns set to what the constraints force. *)
Definition add_first_two (numbers : list Z) (target : Z) : ModelR :=
  let v0 := Select (arr numbers) 0 in
  let v1 := v0 + Select (arr numbers) 1 in
  let dist a := Abs (target - (v0 + a)) in
  mkModelR (mkModel (fun k => Z.of_nat (Nat.min k 5))
                    (fun k => Nat.leb k 1)
                    (fun _ => 0)
                    (fun k => if Nat.eqb k 0 then v0 else v1))
           1
           (fun a => v0 + a)
           dist
           (fold_left Z.max (map dist (tl Resilient.attacks)) (dist 1)).

(** Pool of six zeros: every reachable value is 0, so target 1 is always
    missed by 1.  [all_six] executes all six steps, adding 0 five times. *)
Definition zeros : list Z := [0; 0; 0; 0; 0; 0].

Definition all_six : Model :=
  mkModel (fun k => Z.of_nat (Nat.min k 5))
          (fun k => Nat.leb k 5)
          (fun _ => 0)
          (fun _ => 0).

(** Pool of six 13s, target 13: 13 / 13 in one step.  Of the attacks only
    1 divides 13, and 13 / 1 hits the target. *)
Definition pool_13 : list Z := [13; 13; 13; 13; 13; 13].

Definition thirteen : ModelR :=
  mkModelR (mkModel (fun k => Z.of_nat (Nat.min k 5))
                    (fun k => Nat.leb k 1)
                    (fun _ => 3)
                    (fun k => if Nat.eqb k 0 then 13 else 1))
           1
           (fun a => if a =? 1 then 13 else 0)
           (fun a => if a =? 1 then 0 else -1)
           0.

(** Example pool, target 0, resilient: 1 + 3 in one step. *)
Definition one_plus_3 : ModelR :=
  mkModelR (mkModel (fun k => Z.of_nat (Nat.min k 5))
                    (fun k => Nat.leb k 1)
                    (fun _ => 0)
                    (fun k => if Nat.eqb k 0 then 1 else 4))
           1
           (fun a => 1 + a)
           (fun a => 1 + a)
           11.

(** ** Reading a report back

    [replay] redoes a printed trace by hand: from the initial number it
    applies, line after line, the operator the printed symbol names to the
    printed number, and checks the step number and the printed result.
    A division that is not exact, or by zero, stops it. *)
Definition eval_symbol (operator : string) (x n : Z) : option Z :=
  if String.eqb operator "+" then Some (x + n)
  else if String.eqb operator "-" then Some (x - n)
  else if String.eqb operator "*" then Some (x * n)
  else if String.eqb operator "/" then
    if negb (n =? 0) && (x mod n =? 0) then Some (x / n) else None
  else None.

Fixpoint replay (current : Z) (next : nat) (ls : list line) : option Z :=
  match ls with
  | [] => Some current
  | Step j operator number result :: rest =>
      if Nat.eqb j next then
        match eval_symbol operator current number with
        | Some v => if v =? result then replay result (S next) rest
                    else None
        | None => None
        end
      else None
  | _ => None
  end.

(** The numbers a report shows as taken from the pool: the initial
    number and the operand of every step line. *)
Definition reported_number (l : line) : list Z :=
  match l with
  | Initial_number n => [n]
  | Step _ _ number _ => [number]
  | _ => []
  end.

Definition reported_numbers (out : outcome) : list Z :=
  match out with
  | Printed ls => flat_map reported_number ls
  | KeyError => []
  end.

(** ** A plain assignment carried over to the resilient encoding

    [complete] keeps the shared unknowns and gives the unknowns of the
    resilient solver the values its formulas ask for. *)
Definition complete (target : Z) (m : Model) : ModelR :=
  let L := used_count m - 1 in
  let pre := vals m (Z.to_nat (L - 1)) in
  let code := ops m (Z.to_nat (L - 1)) in
  let legal a := negb (code =? 3) || (mod_ pre a =? 0) in
  let res a := apply_result code pre a in
  let dist a := if legal a then Abs (target - res a) else -1 in
  mkModelR m L res dist
           (fold_left Z.max (map dist (tl Resilient.attacks)) (dist 1)).

(** ** Stopping earlier

    [truncate m n] keeps the first [n] steps of [m] (step 0 included) and
    skips the others, freezing the partial results at step [n - 1]. *)
Definition truncate (m : Model) (n : nat) : Model :=
  mkModel (ids m)
          (fun k => steps m k && Nat.ltb k n)
          (ops m)
          (fun k => vals m (Nat.min k (n - 1))).

(** Pool with two 13s and a 1, target 13: 13 / 1 stays on the target
    where 13 / 13 of [thirteen] leaves it; the attacks see no difference. *)
Definition pool_13_1 : list Z := [13; 13; 1; 13; 13; 13].

Definition thirteen_by_one : ModelR :=
  mkModelR (mkModel (fun k => nth k [0; 2; 1; 3; 4; 5] 0)
                    (fun k => Nat.leb k 1)
                    (fun _ => 3)
                    (fun _ => 13))
           1
           (fun a => if a =? 1 then 13 else 0)
           (fun a => if a =? 1 then 0 else -1)
           0.

(** ** The same choices on a reordered pool

    [reindex g m] is [m] with every operand index sent through [g]. *)
Definition reindex (g : Z -> Z) (m : Model) : Model :=
  mkModel (fun k => g (ids m k)) (steps m) (ops m) (vals m).

Definition reindexR (g : Z -> Z) (m : ModelR) : ModelR :=
  mkModelR (reindex g (base m)) (last_op m) (att_res m) (att_dist m)
           (worst_dist m).

(** ** The two instances of the [__main__] block *)

(** (50 - 3) * 10 - 8 = 462 *)
Definition reach_462 : Model :=
  mkModel (fun k => nth k [5; 1; 4; 3; 0; 2] 0)
          (fun k => Nat.leb k 3)
          (fun k => nth k [1; 2; 1; 0; 0] 0)
          (fun k => nth k [50; 47; 470; 462; 462; 462] 462).

Definition cool_pool : list Z := [25; 50; 75; 100; 3; 6].

(** ((100 + 6) * 3 * 75 - 50) / 25 = 952 *)
Definition reach_952 : Model :=
  mkModel (fun k => nth k [3; 5; 4; 2; 1; 0] 0)
          (fun k => Nat.leb k 5)
          (fun k => nth k [0; 2; 2; 1; 3] 0)
          (fun k => nth k [100; 106; 318; 23850; 23800; 952] 952).

(** The block as it runs, [cool_example] being [False]: one call of each
    solver on the example pool with target 462. *)
Definition main (out1 out2 : outcome) : Prop :=
  Plain.CountingStrategy example_pool 462 out1 /\
  Resilient.CountingStrategyResilient example_pool 462 out2.

(** * Properties *)

(** ** Z3 terms *)

Lemma Abs_abs (x : Z) : Abs x = Z.abs x.
Proof. unfold Abs. destruct (Z.geb_spec x 0); lia. Qed.

Lemma Abs_nonneg (x : Z) : 0 <= Abs x.
Proof. rewrite Abs_abs. lia. Qed.

Lemma mod_pos (x y : Z) : 0 < y -> mod_ x y = x mod y.
Proof. intros H. unfold mod_. now rewrite Z.abs_eq by lia. Qed.

Lemma div_pos (x y : Z) : 0 < y -> div x y = x / y.
Proof.
  intros H. unfold div. rewrite Z.abs_eq, Z.sgn_pos by lia. lia.
Qed.

(** Exact division: when the remainder is 0 the quotient times the divisor
    gives the dividend back, whatever the signs. *)
Lemma div_exact (x y : Z) : y <> 0 -> mod_ x y = 0 -> y * div x y = x.
Proof.
  unfold mod_, div. intros Hy Hm.
  assert (Ha : Z.abs y <> 0) by lia.
  pose proof (Z.div_mod x (Z.abs y) Ha) as E. rewrite Hm in E.
  rewrite Z.mul_assoc, <- Z.abs_sgn. lia.
Qed.

Lemma mod_1 (x : Z) : mod_ x 1 = 0.
Proof. unfold mod_. simpl. apply Z.mod_1_r. Qed.

Lemma store_all_select (numbers : list Z) :
  forall (a : IntArray) (i0 j : Z),
    store_all a i0 numbers j =
    if (i0 <=? j) && (j <? i0 + Z.of_nat (length numbers))
    then nth (Z.to_nat (j - i0)) numbers 0 else a j.
Proof.
  induction numbers as [|v rest IH]; intros a i0 j.
  - simpl. destruct (i0 <=? j) eqn:E1; simpl; [|reflexivity].
    destruct (Z.ltb_spec j (i0 + 0)); [lia | reflexivity].
  - cbn [store_all length]. rewrite IH. unfold Store.
    destruct (Z.eqb_spec j i0) as [->|Hne].
    + destruct (Z.leb_spec (i0 + 1) i0); [lia|]. cbn [andb].
      rewrite Z.leb_refl.
      destruct (Z.ltb_spec i0 (i0 + Z.of_nat (S (length rest)))); [|lia].
      cbn [andb]. now rewrite Z.sub_diag.
    + destruct (Z.leb_spec (i0 + 1) j), (Z.leb_spec i0 j),
               (Z.ltb_spec j (i0 + 1 + Z.of_nat (length rest))),
               (Z.ltb_spec j (i0 + Z.of_nat (S (length rest))));
        cbn [andb]; try lia; try reflexivity.
      replace (Z.to_nat (j - i0)) with (S (Z.to_nat (j - (i0 + 1)))) by lia.
      reflexivity.
Qed.

(** Reading the pool array: the entry when there is one, 0 otherwise. *)
Lemma arr_select (numbers : list Z) (i : Z) :
  0 <= i -> Select (arr numbers) i = nth (Z.to_nat i) numbers 0.
Proof.
  intros Hi. unfold Select, arr. rewrite store_all_select.
  destruct (Z.leb_spec 0 i); [|lia]. rewrite Z.sub_0_r. cbn [andb].
  destruct (Z.ltb_spec i (0 + Z.of_nat (length numbers))); [reflexivity|].
  unfold K. symmetry. apply nth_overflow. lia.
Qed.

Lemma in_range (a b i : nat) : In i (range a b) <-> (a <= i < b)%nat.
Proof. unfold range. rewrite in_seq. lia. Qed.

Lemma in_attacks (a : Z) : In a Resilient.attacks <-> 1 <= a <= 10.
Proof.
  unfold Resilient.attacks. rewrite in_map_iff. split.
  - intros (n & <- & Hn). apply in_range in Hn. lia.
  - intros H. exists (Z.to_nat a). split; [lia|]. apply in_range. lia.
Qed.

(** ** The step formula *)

Lemma apply_executed (op_now val_now val_next n_used : Z) :
  apply op_now val_now val_next true n_used = true <->
  val_next = apply_result op_now val_now n_used /\
  (op_now <> 0 -> op_now <> 1 -> op_now <> 2 -> division_ok val_now n_used).
Proof.
  unfold apply, apply_result, division_ok, And. cbn [forallb].
  destruct (Z.eqb_spec op_now 0); [rewrite Z.eqb_eq; intuition lia|].
  destruct (Z.eqb_spec op_now 1); [rewrite Z.eqb_eq; intuition lia|].
  destruct (Z.eqb_spec op_now 2); [rewrite Z.eqb_eq; intuition lia|].
  rewrite !andb_true_iff, negb_true_iff, !Z.eqb_eq, Z.eqb_neq.
  intuition.
Qed.

Lemma transition_executed (numbers : list Z) (m : Model) (k : nat) :
  steps m k = true ->
  (transition numbers m k = true <->
   let operand := Select (arr numbers) (ids m k) in
   let op := ops m (k - 1)%nat in
   vals m k = apply_result op (vals m (k - 1)%nat) operand /\
   (op <> 0 -> op <> 1 -> op <> 2 ->
    division_ok (vals m (k - 1)%nat) operand)).
Proof. intros E. unfold transition. rewrite E. apply apply_executed. Qed.

Lemma transition_skipped (numbers : list Z) (m : Model) (k : nat) :
  steps m k = false ->
  (transition numbers m k = true <-> vals m k = vals m (k - 1)%nat).
Proof. intros E. unfold transition. rewrite E. apply Z.eqb_eq. Qed.

(** ** What the formulas say *)

Lemma Or_true (ts : list bool) :
  Or ts = true <-> exists t, In t ts /\ t = true.
Proof. unfold Or. rewrite existsb_exists. reflexivity. Qed.

Lemma ids_in_range_spec (m : Model) :
  ids_in_range m = true <-> forall i, (i < 6)%nat -> 0 <= ids m i < 6.
Proof.
  unfold ids_in_range. rewrite forallb_forall. split; intros H i Hi.
  - specialize (H i). rewrite in_range in H. specialize (H ltac:(lia)).
    cbn in H. rewrite !andb_true_iff in H. lia.
  - apply in_range in Hi. specialize (H i ltac:(lia)).
    cbn. rewrite !andb_true_iff. lia.
Qed.

Lemma ops_in_range_spec (m : Model) :
  ops_in_range m = true <-> forall i, (i < 5)%nat -> 0 <= ops m i < 4.
Proof.
  unfold ops_in_range. rewrite forallb_forall. split; intros H i Hi.
  - specialize (H i). rewrite in_range in H. specialize (H ltac:(lia)).
    cbn in H. rewrite !andb_true_iff in H. lia.
  - apply in_range in Hi. specialize (H i ltac:(lia)).
    cbn. rewrite !andb_true_iff. lia.
Qed.

Lemma steps_prefix_spec (m : Model) :
  steps_prefix m = true <->
  forall i, (1 <= i < 6)%nat -> steps m i = true ->
            steps m (i - 1)%nat = true.
Proof.
  unfold steps_prefix, Implies. rewrite forallb_forall.
  split; intros H i Hi.
  - specialize (H i). rewrite in_range in H. specialize (H ltac:(lia)).
    destruct (Nat.eqb_spec i 0); [lia|]. intros E. rewrite E in H.
    exact H.
  - destruct (Nat.eqb_spec i 0); [reflexivity|]. apply in_range in Hi.
    specialize (H i ltac:(lia)).
    destruct (steps m i); [now apply H | reflexivity].
Qed.

Lemma ids_distinct_spec (m : Model) :
  ids_distinct m = true <->
  forall i j, (i < j < 6)%nat -> steps m i = true -> steps m j = true ->
              ids m i <> ids m j.
Proof.
  unfold ids_distinct, Implies. rewrite forallb_forall. split.
  - intros H i j Hij Ei Ej.
    specialize (H i). rewrite in_range in H. specialize (H ltac:(lia)).
    rewrite forallb_forall in H. specialize (H j).
    rewrite in_range in H. specialize (H ltac:(lia)).
    cbn in H. rewrite Ei, Ej in H. cbn in H.
    apply negb_true_iff, Z.eqb_neq in H. exact H.
  - intros H i Hi. apply in_range in Hi.
    rewrite forallb_forall. intros j Hj. apply in_range in Hj.
    cbn. destruct (steps m i) eqn:Ei, (steps m j) eqn:Ej; cbn; trivial.
    apply negb_true_iff, Z.eqb_neq. apply H; trivial. lia.
Qed.

Lemma transitions_spec (numbers : list Z) (m : Model) :
  transitions numbers m = true <->
  forall k, (1 <= k < 6)%nat -> transition numbers m k = true.
Proof.
  unfold transitions. rewrite forallb_forall.
  split; intros H k Hk; apply H; apply in_range; trivial.
Qed.

Lemma initial_step_spec (m : Model) :
  initial_step m = true <-> steps m 0%nat = true.
Proof. unfold initial_step. now destruct (steps m 0%nat). Qed.

Lemma constraints_feasible (numbers : list Z) (m : Model) :
  Plain.constraints numbers m = true <-> feasible numbers m.
Proof.
  unfold Plain.constraints, And. cbn [forallb].
  rewrite !andb_true_iff, ids_in_range_spec, ops_in_range_spec,
    steps_prefix_spec, ids_distinct_spec, transitions_spec,
    initial_step_spec.
  unfold first_value. rewrite Z.eqb_eq.
  split.
  - intros (H1 & H2 & H3 & H4 & H5 & H6 & H7 & _). now constructor.
  - intros []. tauto.
Qed.

Lemma cases_spec (m : ModelR) :
  Or (Resilient.cases m) = true <->
  exists k, (1 <= k < 6)%nat /\ last_op m = Z.of_nat k /\
            steps (base m) k = true /\
            (k <> 5%nat -> steps (base m) (k + 1)%nat = false).
Proof.
  rewrite Or_true. unfold Resilient.cases. split.
  - intros (t & Hin & Ht). apply in_map_iff in Hin.
    destruct Hin as (k & <- & Hk). apply in_range in Hk.
    cbn in Ht. rewrite !andb_true_iff, Z.eqb_eq in Ht.
    destruct Ht as (E1 & E2 & E3 & _).
    exists k. repeat split; trivial; try lia.
    intros Hk5. destruct (Nat.eqb_spec k 5); [lia|].
    now apply negb_true_iff.
  - intros (k & Hk & E1 & E2 & E3).
    eexists. split.
    + apply in_map_iff. exists k. split; [reflexivity|].
      apply in_range. lia.
    + cbn. rewrite !andb_true_iff, Z.eqb_eq. repeat split; trivial.
      destruct (Nat.eqb_spec k 5); [reflexivity|].
      apply negb_true_iff. now apply E3.
Qed.

Lemma attack_constraints_spec (target : Z) (m : ModelR) :
  forallb (Resilient.attack_constraint target m) Resilient.attacks = true <->
  forall a, 1 <= a <= 10 ->
    (Resilient.legal_attack m a = true ->
     apply (Resilient.last_op_code m) (Resilient.pre_last_val m)
           (att_res m a) true a = true) /\
    att_dist m a = (if Resilient.legal_attack m a
                    then Abs (target - att_res m a) else -1).
Proof.
  rewrite forallb_forall. unfold Resilient.attack_constraint, Implies.
  split; intros H a Ha.
  - apply in_attacks in Ha. specialize (H a Ha).
    unfold And in H. cbn [forallb] in H.
    rewrite !andb_true_iff, Z.eqb_eq in H. destruct H as (H1 & H2 & _).
    split; trivial. intros E. now rewrite E in H1.
  - apply in_attacks in Ha. destruct (H a Ha) as (H1 & H2).
    unfold And. cbn [forallb].
    rewrite !andb_true_iff, Z.eqb_eq. repeat split; trivial.
    destruct (Resilient.legal_attack m a); [now apply H1 | reflexivity].
Qed.

Lemma worst_is_upper_bound_spec (m : ModelR) :
  Resilient.worst_is_upper_bound m = true <->
  forall a, 1 <= a <= 10 -> att_dist m a <= worst_dist m.
Proof.
  unfold Resilient.worst_is_upper_bound. rewrite forallb_forall.
  split; intros H a Ha.
  - apply in_attacks in Ha. specialize (H a Ha). lia.
  - apply in_attacks in Ha. specialize (H a Ha). lia.
Qed.

Lemma worst_is_attained_spec (m : ModelR) :
  Resilient.worst_is_attained m = true <->
  exists a, 1 <= a <= 10 /\ Resilient.legal_attack m a = true /\
            worst_dist m = att_dist m a.
Proof.
  unfold Resilient.worst_is_attained. rewrite Or_true. split.
  - intros (t & Hin & Ht). apply in_map_iff in Hin.
    destruct Hin as (a & <- & Ha). apply in_attacks in Ha.
    unfold And in Ht. cbn [forallb] in Ht.
    rewrite !andb_true_iff, Z.eqb_eq in Ht.
    exists a. tauto.
  - intros (a & Ha & E1 & E2). eexists. split.
    + apply in_map_iff. exists a. split; [reflexivity|].
      now apply in_attacks.
    + unfold And. cbn [forallb]. rewrite !andb_true_iff, Z.eqb_eq. tauto.
Qed.

Lemma constraintsR_feasible (numbers : list Z) (target : Z) (m : ModelR) :
  Resilient.constraints numbers target m = true <->
  feasibleR numbers target m.
Proof.
  unfold Resilient.constraints.
  change (And ?l) with (forallb (fun t : bool => t) l) at 1.
  cbn [forallb].
  rewrite !andb_true_iff, cases_spec, attack_constraints_spec,
    worst_is_upper_bound_spec, worst_is_attained_spec.
  assert (B : (first_value numbers (base m) = true /\
               ids_in_range (base m) = true /\
               ops_in_range (base m) = true /\
               steps_prefix (base m) = true /\
               ids_distinct (base m) = true /\
               transitions numbers (base m) = true /\
               initial_step (base m) = true) <->
              feasible numbers (base m)).
  { rewrite <- constraints_feasible. unfold Plain.constraints, And.
    cbn [forallb]. rewrite !andb_true_iff. tauto. }
  assert (S1 : Bool.eqb (steps (base m) 1%nat) true = true <->
               steps (base m) 1%nat = true)
    by (now destruct (steps (base m) 1%nat)).
  assert (L : And [last_op m >=? 1; last_op m <=? 5] = true <->
              1 <= last_op m <= 5).
  { cbn. rewrite !andb_true_iff. lia. }
  rewrite S1, L. split.
  - intros H. constructor; tauto.
  - intros []. tauto.
Qed.

Lemma constraintsR_base (numbers : list Z) (target : Z) (m : ModelR) :
  Resilient.constraints numbers target m = true ->
  Plain.constraints numbers (base m) = true.
Proof.
  intros H. apply constraints_feasible.
  now apply constraintsR_feasible in H as [].
Qed.

(** ** Executed steps form a prefix *)

Lemma steps_false_after (numbers : list Z) (m : Model) (i : nat) :
  feasible numbers m -> steps m i = false ->
  forall j, (i <= j < 6)%nat -> steps m j = false.
Proof.
  intros F Hi j. induction j as [|j IH]; intros Hj.
  - now replace i with 0%nat in Hi by lia.
  - destruct (Nat.eq_dec i (S j)) as [<-|Hne]; trivial.
    destruct (steps m (S j)) eqn:E; trivial.
    apply (f_prefix _ _ F) in E; [|lia].
    replace (S j - 1)%nat with j in E by lia.
    rewrite IH in E; [discriminate | lia].
Qed.

Lemma steps_true_before (numbers : list Z) (m : Model) (j : nat) :
  feasible numbers m -> (j < 6)%nat -> steps m j = true ->
  forall i, (i <= j)%nat -> steps m i = true.
Proof.
  intros F Hj E i Hi. destruct (steps m i) eqn:Ei; trivial.
  rewrite (steps_false_after numbers m i F Ei j) in E; [discriminate|lia].
Qed.

(** Once a step is skipped the value no longer changes. *)
Lemma vals_frozen (numbers : list Z) (m : Model) (i : nat) :
  feasible numbers m ->
  (forall j, (i < j < 6)%nat -> steps m j = false) ->
  forall j, (i <= j < 6)%nat -> vals m j = vals m i.
Proof.
  intros F Hs j. induction j as [|j IH]; intros Hj.
  - now replace i with 0%nat by lia.
  - destruct (Nat.eq_dec i (S j)) as [<-|Hne]; trivial.
    pose proof (f_trans _ _ F (S j) ltac:(lia)) as T.
    apply transition_skipped in T; [|apply Hs; lia].
    replace (S j - 1)%nat with j in T by lia.
    rewrite T. apply IH. lia.
Qed.

Lemma used_count_unfold (m : Model) :
  used_count m =
  Z.b2z (steps m 0%nat) + Z.b2z (steps m 1%nat) + Z.b2z (steps m 2%nat) +
  Z.b2z (steps m 3%nat) + Z.b2z (steps m 4%nat) + Z.b2z (steps m 5%nat).
Proof.
  unfold used_count, Sum. cbn.
  destruct (steps m 0%nat), (steps m 1%nat), (steps m 2%nat),
    (steps m 3%nat), (steps m 4%nat), (steps m 5%nat); reflexivity.
Qed.

Lemma used_count_bounds (m : Model) : 0 <= used_count m <= 6.
Proof.
  rewrite used_count_unfold.
  destruct (steps m 0%nat), (steps m 1%nat), (steps m 2%nat),
    (steps m 3%nat), (steps m 4%nat), (steps m 5%nat); cbn; lia.
Qed.

Lemma used_count_ge_1 (numbers : list Z) (m : Model) :
  feasible numbers m -> 1 <= used_count m.
Proof.
  intros F. rewrite used_count_unfold, (f_init _ _ F).
  destruct (steps m 1%nat), (steps m 2%nat),
    (steps m 3%nat), (steps m 4%nat), (steps m 5%nat); cbn; lia.
Qed.

Lemma used_count_ge_2 (numbers : list Z) (target : Z) (m : ModelR) :
  feasibleR numbers target m -> 2 <= used_count (base m).
Proof.
  intros F. rewrite used_count_unfold, (f_init _ _ (r_base _ _ _ F)),
    (r_step1 _ _ _ F).
  destruct (steps (base m) 2%nat),
    (steps (base m) 3%nat), (steps (base m) 4%nat), (steps (base m) 5%nat);
    cbn; lia.
Qed.

(** ** Step semantics (C5) *)

(** C5.  In every assignment that satisfies the constraints of
    [CountingStrategy], each step k of 1..5 follows the transition rule:
    a step that is not executed keeps the value; an executed step adds,
    subtracts or multiplies the chosen pool entry according to its operator
    code, and an executed division is only possible when the operand is
    not zero and divides the previous value exactly, the new value being
    the exact quotient.  The operator code is one of the four, so no
    other case exists and an assignment with an illegal division
    satisfies the constraints in no way. *)
Theorem C5_transition_rule (numbers : list Z) (m : Model) (k : nat) :
  Plain.constraints numbers m = true -> (1 <= k <= 5)%nat ->
  let operand := Select (arr numbers) (ids m k) in
  let prev := vals m (k - 1)%nat in
  let op := ops m (k - 1)%nat in
  (steps m k = false -> vals m k = prev) /\
  (steps m k = true ->
   (op = 0 -> vals m k = prev + operand) /\
   (op = 1 -> vals m k = prev - operand) /\
   (op = 2 -> vals m k = prev * operand) /\
   (op = 3 -> operand <> 0 /\ (operand | prev) /\
              mod_ prev operand = 0 /\
              vals m k = div prev operand /\
              vals m k = prev / operand /\
              vals m k * operand = prev)) /\
  (op = 0 \/ op = 1 \/ op = 2 \/ op = 3).
Proof.
  intros C Hk operand prev op. apply constraints_feasible in C.
  pose proof (f_trans _ _ C k ltac:(lia)) as T.
  pose proof (f_ops _ _ C (k - 1)%nat ltac:(lia)) as O. fold op in O.
  split; [|split; [|lia]].
  - intros E. now apply transition_skipped in T.
  - intros E. apply (transition_executed numbers m k E) in T.
    cbn zeta in T. fold operand prev op in T. destruct T as (V & D).
    unfold apply_result in V.
    split; [|split; [|split]]; intros Hop; rewrite Hop in V, D; cbn in V;
      trivial.
    destruct D as (Hz & Hm); try lia.
    pose proof (div_exact prev operand Hz Hm) as X.
    split; [exact Hz|]. split; [exists (div prev operand); lia|].
    split; [exact Hm|]. split; [exact V|]. rewrite V. split; [|lia].
    apply Z.div_unique_exact; [trivial | lia].
Qed.

Lemma C5_transition_rule_witness :
  vals (base thirteen) 1%nat = vals (base thirteen) 0%nat / 13 /\
  vals (base thirteen) 2%nat = vals (base thirteen) 1%nat.
Proof.
  pose proof (C5_transition_rule pool_13 (base thirteen) 1 eq_refl
                ltac:(lia)) as (_ & H1 & _).
  pose proof (C5_transition_rule pool_13 (base thirteen) 2 eq_refl
                ltac:(lia)) as (H2 & _).
  split.
  - apply (H1 eq_refl). reflexivity.
  - apply (H2 eq_refl).
Defined.

(** ** Each pool entry is used at most once (C8) *)

Lemma filter_at_most_one {A : Type} (f : A -> bool) (l : list A) :
  NoDup l ->
  (forall x y, In x l -> In y l -> f x = true -> f y = true -> x = y) ->
  (length (filter f l) <= 1)%nat.
Proof.
  induction 1 as [|a l Hnotin Hnd IH]; intros U; cbn; [lia|].
  destruct (f a) eqn:Ea.
  - cbn. assert (E : filter f l = []).
    { destruct (filter f l) as [|b r] eqn:Ef; trivial.
      assert (Hb : In b (filter f l)) by (rewrite Ef; now left).
      apply filter_In in Hb as (Hb1 & Hb2).
      assert (a = b) by (apply U; cbn; auto). subst. contradiction. }
    rewrite E. cbn. lia.
  - apply IH. intros x y Hx Hy. apply U; cbn; auto.
Qed.

Lemma feasible_ids_distinct (numbers : list Z) (m : Model) :
  feasible numbers m ->
  forall i j, (i < 6)%nat -> (j < 6)%nat -> i <> j ->
              steps m i = true -> steps m j = true -> ids m i <> ids m j.
Proof.
  intros F i j Hi Hj Hne Ei Ej.
  destruct (Nat.lt_ge_cases i j).
  - apply (f_distinct _ _ F); trivial. lia.
  - intros E. symmetry in E. revert E.
    apply (f_distinct _ _ F); trivial. lia.
Qed.

Lemma feasible_times_used (numbers : list Z) (m : Model) (p : Z) :
  feasible numbers m -> (times_used m p <= 1)%nat.
Proof.
  intros F. unfold times_used. apply filter_at_most_one.
  - apply seq_NoDup.
  - intros x y Hx Hy Ex Ey. apply in_range in Hx, Hy.
    apply andb_true_iff in Ex as (Sx & Ix), Ey as (Sy & Iy).
    apply Z.eqb_eq in Ix, Iy.
    destruct (Nat.eq_dec x y) as [|Hne]; trivial.
    exfalso. apply (feasible_ids_distinct numbers m F x y); trivial; lia.
Qed.

(** C8.  In every assignment that satisfies the constraints of
    [CountingStrategy], and in every assignment that satisfies those of
    [CountingStrategyResilient], two different executed steps never have
    the same operand index, so that every pool position serves as the
    operand of at most one executed step. *)
Theorem C8_operand_used_once (numbers : list Z) (target : Z) :
  (forall m : Model,
      Plain.constraints numbers m = true ->
      (forall i j, (i < 6)%nat -> (j < 6)%nat -> i <> j ->
                   steps m i = true -> steps m j = true ->
                   ids m i <> ids m j) /\
      (forall p, (times_used m p <= 1)%nat)) /\
  (forall m : ModelR,
      Resilient.constraints numbers target m = true ->
      (forall i j, (i < 6)%nat -> (j < 6)%nat -> i <> j ->
                   steps (base m) i = true -> steps (base m) j = true ->
                   ids (base m) i <> ids (base m) j) /\
      (forall p, (times_used (base m) p <= 1)%nat)).
Proof.
  split; intros m C; [|apply constraintsR_base in C];
    apply constraints_feasible in C; split.
  - now apply feasible_ids_distinct with numbers.
  - intros p. now apply feasible_times_used with numbers.
  - now apply feasible_ids_distinct with numbers.
  - intros p. now apply feasible_times_used with numbers.
Qed.

Lemma C8_operand_used_once_witness :
  ids (base thirteen) 0%nat <> ids (base thirteen) 1%nat /\
  (times_used (base thirteen) 1 <= 1)%nat.
Proof.
  destruct (C8_operand_used_once pool_13 13) as (P & R).
  split.
  - apply (proj1 (P (base thirteen) eq_refl)); (lia || reflexivity).
  - apply (proj2 (R thirteen eq_refl)).
Defined.

(** ** The search space is never empty (C9) *)

Lemma only_step_0_feasible (numbers : list Z) (i : Z) :
  0 <= i < 6 -> feasible numbers (only_step_0 numbers i).
Proof.
  intros Hi. constructor; cbn.
  - reflexivity.
  - intros k _. destruct (Nat.eqb k 0); lia.
  - intros; lia.
  - intros k Hk. destruct (Nat.eqb_spec k 0); [lia | discriminate].
  - intros k j Hkj _. destruct (Nat.eqb_spec j 0); [lia | discriminate].
  - intros k Hk. unfold transition. cbn.
    destruct (Nat.eqb_spec k 0); [lia | apply Z.eqb_refl].
  - reflexivity.
Qed.

(** C9.  For every pool of six integers and every target the constraints
    of [CountingStrategy] have a model: choosing any pool position for
    step 0 and skipping steps 1..5 satisfies all of them, the final value
    being the first value, which is the chosen pool entry.  Hence
    [opt.check()] cannot answer [unsat]. *)
Theorem C9_feasible_region_not_empty
        (numbers : list Z) (target : Z) (i : Z) :
  length numbers = 6%nat -> 0 <= i < 6 ->
  let m := only_step_0 numbers i in
  Plain.constraints numbers m = true /\
  steps m 0%nat = true /\
  (forall k, (1 <= k <= 5)%nat -> steps m k = false) /\
  vals m 5%nat = vals m 0%nat /\
  vals m 0%nat = nth (Z.to_nat i) numbers 0 /\
  In (vals m 0%nat) numbers /\
  ~ check Model (Plain.constraints numbers) (Plain.objectives target) unsat.
Proof.
  intros Hlen Hi m.
  assert (C : Plain.constraints numbers m = true)
    by (apply constraints_feasible; now apply only_step_0_feasible).
  assert (V : vals m 0%nat = nth (Z.to_nat i) numbers 0)
    by (cbn; apply arr_select; lia).
  repeat split; trivial.
  - intros k Hk. cbn. destruct (Nat.eqb_spec k 0); [lia | reflexivity].
  - rewrite V. apply nth_In. lia.
  - intros U. specialize (U m). rewrite C in U. discriminate.
Qed.

Lemma C9_feasible_region_not_empty_witness :
  Plain.constraints example_pool pick_50 = true /\
  vals pick_50 5%nat = 50.
Proof.
  destruct (C9_feasible_region_not_empty example_pool 50 5 eq_refl
              ltac:(lia)) as (C & _ & _ & V5 & V0 & _).
  split; [exact C|]. unfold pick_50. rewrite V5, V0. reflexivity.
Defined.

(** ** The last executed step of the resilient encoding *)

Lemma vals_arr_select (m : ModelR) (i : nat) :
  (i < 6)%nat ->
  Select (Resilient.vals_arr m) (Z.of_nat i) = vals (base m) i.
Proof.
  intros H. do 6 (destruct i as [|i]; [reflexivity|]). lia.
Qed.

Lemma ops_arr_select (m : ModelR) (i : nat) :
  (i < 5)%nat ->
  Select (Resilient.ops_arr m) (Z.of_nat i) = ops (base m) i.
Proof.
  intros H. do 5 (destruct i as [|i]; [reflexivity|]). lia.
Qed.

(** [last_op] is the index of the last executed step, and the two array
    reads fetch the value before it and its operator code. *)
Lemma last_step (numbers : list Z) (target : Z) (m : ModelR) :
  feasibleR numbers target m ->
  let L := Z.to_nat (last_op m) in
  (1 <= L <= 5)%nat /\
  (forall j, (j <= L)%nat -> steps (base m) j = true) /\
  (forall j, (L < j < 6)%nat -> steps (base m) j = false) /\
  Resilient.pre_last_val m = vals (base m) (L - 1)%nat /\
  Resilient.last_op_code m = ops (base m) (L - 1)%nat /\
  vals (base m) 5%nat = vals (base m) L.
Proof.
  intros F L. destruct (r_case _ _ _ F) as (k & Hk & E & Sk & Snext).
  assert (HL : L = k) by (unfold L; lia). rewrite HL. clear L HL.
  pose proof (r_base _ _ _ F) as B.
  assert (After : forall j, (k < j < 6)%nat -> steps (base m) j = false).
  { intros j Hj. apply (steps_false_after numbers (base m) (k + 1)%nat B).
    - apply Snext. lia.
    - lia. }
  split; [lia|]. split; [|split; [exact After|]].
  { intros j Hj. apply (steps_true_before numbers (base m) k B); trivial.
    lia. }
  unfold Resilient.pre_last_val, Resilient.last_op_code. rewrite E.
  replace (Z.of_nat k - 1) with (Z.of_nat (k - 1)) by lia.
  rewrite vals_arr_select, ops_arr_select by lia.
  repeat split. apply (vals_frozen numbers (base m) k B After). lia.
Qed.

Lemma last_op_code_range (numbers : list Z) (target : Z) (m : ModelR) :
  feasibleR numbers target m -> 0 <= Resilient.last_op_code m < 4.
Proof.
  intros F. destruct (last_step _ _ _ F) as (HL & _ & _ & _ & -> & _).
  apply (f_ops _ _ (r_base _ _ _ F)). lia.
Qed.

(** As many steps are executed as [last_op] says, counting step 0. *)
Lemma used_count_last_op (numbers : list Z) (target : Z) (m : ModelR) :
  feasibleR numbers target m -> used_count (base m) = last_op m + 1.
Proof.
  intros F. destruct (last_step _ _ _ F) as (HL & Hb & Ha & _).
  pose proof (r_last _ _ _ F) as R.
  rewrite used_count_unfold.
  assert (S : forall j, (j < 6)%nat ->
                        steps (base m) j = (j <=? Z.to_nat (last_op m))%nat).
  { intros j Hj. destruct (Nat.leb_spec j (Z.to_nat (last_op m))).
    - now apply Hb.
    - apply Ha. lia. }
  rewrite !S by lia.
  assert (Cases : last_op m = 1 \/ last_op m = 2 \/ last_op m = 3 \/
                  last_op m = 4 \/ last_op m = 5) by lia.
  destruct Cases as [->|[->|[->|[->| ->]]]]; reflexivity.
Qed.

(** ** Attacks *)

Lemma legal_attack_spec (m : ModelR) (a : Z) :
  Resilient.legal_attack m a = true <->
  Resilient.last_op_code m <> 3 \/ mod_ (Resilient.pre_last_val m) a = 0.
Proof.
  unfold Resilient.legal_attack, Or. cbn [existsb].
  rewrite !orb_true_iff, negb_true_iff, Z.eqb_neq, Z.eqb_eq.
  intuition discriminate.
Qed.

Lemma legal_attack_1 (m : ModelR) : Resilient.legal_attack m 1 = true.
Proof. apply legal_attack_spec. right. apply mod_1. Qed.

Lemma legal_attack_no_division (m : ModelR) (a : Z) :
  Resilient.last_op_code m <> 3 -> Resilient.legal_attack m a = true.
Proof. intros H. apply legal_attack_spec. now left. Qed.

Lemma legal_attack_as_spec (m : ModelR) (a : Z) :
  0 < a ->
  Resilient.legal_attack m a =
  spec_legal (Resilient.last_op_code m) (Resilient.pre_last_val m) a.
Proof.
  intros Ha. unfold Resilient.legal_attack, spec_legal, Or. cbn [existsb].
  rewrite mod_pos by trivial. now rewrite orb_false_r.
Qed.

(** A legal attack yields the last step redone with the attack value. *)
Lemma legal_attack_result (numbers : list Z) (target : Z) (m : ModelR)
      (a : Z) :
  feasibleR numbers target m -> 1 <= a <= 10 ->
  Resilient.legal_attack m a = true ->
  att_res m a =
    apply_result (Resilient.last_op_code m) (Resilient.pre_last_val m) a /\
  att_dist m a =
    Z.abs (target - apply_result (Resilient.last_op_code m)
                                 (Resilient.pre_last_val m) a).
Proof.
  intros F Ha Hl. destruct (r_attack _ _ _ F a Ha) as (H1 & H2).
  pose proof (H1 Hl) as Hr. apply apply_executed in Hr as (Hr & _).
  rewrite Hl, Abs_abs in H2. rewrite H2, Hr. auto.
Qed.

Lemma illegal_attack_dist (numbers : list Z) (target : Z) (m : ModelR)
      (a : Z) :
  feasibleR numbers target m -> 1 <= a <= 10 ->
  Resilient.legal_attack m a = false -> att_dist m a = -1.
Proof.
  intros F Ha Hl. destruct (r_attack _ _ _ F a Ha) as (_ & H2).
  now rewrite Hl in H2.
Qed.

Lemma worst_dist_nonneg (numbers : list Z) (target : Z) (m : ModelR) :
  feasibleR numbers target m -> 0 <= worst_dist m.
Proof.
  intros F. destruct (r_attained _ _ _ F) as (a & Ha & Hl & ->).
  destruct (legal_attack_result _ _ _ a F Ha Hl) as (_ & ->). lia.
Qed.

(** ** Maximum of a list *)

Lemma fold_left_max_spec (rest : list Z) :
  forall d, In (fold_left Z.max rest d) (d :: rest) /\
            forall x, In x (d :: rest) -> x <= fold_left Z.max rest d.
Proof.
  induction rest as [|y rest IH]; intros d; cbn [fold_left].
  - split; [now left|]. intros x [<-|[]]. lia.
  - destruct (IH (Z.max d y)) as (Hin & Hub). split.
    + destruct Hin as [E|Hin]; [|right; now right].
      rewrite <- E. destruct (Z.max_spec d y) as [[_ ->]|[_ ->]];
        [right; now left | now left].
    + intros x [<-|[<-|Hx]].
      * specialize (Hub (Z.max d y) (or_introl eq_refl)). lia.
      * specialize (Hub (Z.max d y) (or_introl eq_refl)). lia.
      * apply Hub. now right.
Qed.

Lemma max_of_spec (ds : list Z) (w : Z) :
  In w ds -> (forall d, In d ds -> d <= w) -> max_of ds = Some w.
Proof.
  destruct ds as [|d rest]; [intros []|]. intros Hin Hub.
  cbn [max_of]. f_equal.
  destruct (fold_left_max_spec rest d) as (Hin' & Hub').
  specialize (Hub _ Hin'). specialize (Hub' _ Hin). lia.
Qed.

Lemma in_one_to_ten (a : Z) :
  In a [1; 2; 3; 4; 5; 6; 7; 8; 9; 10] <-> 1 <= a <= 10.
Proof. cbn. lia. Qed.

(** ** The worst case (C3, C7, C10) *)

(** C10.  In every assignment that satisfies the constraints of
    [CountingStrategyResilient] the attack with value 1 is legal, whatever
    the last operator; [worst_dist] is the distance of some legal attack;
    it is never negative, and so never the -1 that an illegal attack gets
    as its distance. *)
Theorem C10_worst_dist_from_a_legal_attack
        (numbers : list Z) (target : Z) (m : ModelR) :
  Resilient.constraints numbers target m = true ->
  Resilient.legal_attack m 1 = true /\
  (exists a, 1 <= a <= 10 /\ Resilient.legal_attack m a = true /\
             worst_dist m = att_dist m a /\
             att_dist m a = Abs (target - att_res m a)) /\
  0 <= worst_dist m /\
  worst_dist m <> -1 /\
  (forall a, 1 <= a <= 10 -> Resilient.legal_attack m a = false ->
             att_dist m a = -1 /\ att_dist m a < worst_dist m).
Proof.
  intros C. apply constraintsR_feasible in C.
  pose proof (worst_dist_nonneg _ _ _ C) as N.
  split; [apply legal_attack_1|]. split; [|split; [exact N|split; [lia|]]].
  - destruct (r_attained _ _ _ C) as (a & Ha & Hl & E).
    exists a. repeat split; trivial; try lia.
    destruct (r_attack _ _ _ C a Ha) as (_ & D). now rewrite Hl in D.
  - intros a Ha Hl. rewrite (illegal_attack_dist _ _ _ a C Ha Hl). lia.
Qed.

Lemma C10_worst_dist_from_a_legal_attack_witness :
  Resilient.legal_attack thirteen 1 = true /\ 0 <= worst_dist thirteen.
Proof.
  destruct (C10_worst_dist_from_a_legal_attack pool_13 13 thirteen eq_refl)
    as (H1 & _ & H2 & _).
  split; [exact H1 | exact H2].
Defined.

(** C3.  In every assignment that satisfies the constraints of
    [CountingStrategyResilient], [last_op] is the last executed step L,
    an attack a of 1..10 is legal exactly when the operator of step L is
    not division or the value before step L is divisible by a, and
    [worst_dist] is the maximum over the legal attacks, and only those,
    of the distance between the target and step L redone with operand a. *)
Theorem C3_worst_dist_is_max_over_legal_attacks
        (numbers : list Z) (target : Z) (m : ModelR) :
  Resilient.constraints numbers target m = true ->
  let L := Z.to_nat (last_op m) in
  let lastOperator := ops (base m) (L - 1)%nat in
  let preLastValue := vals (base m) (L - 1)%nat in
  let attackDist a :=
    Z.abs (target - apply_result lastOperator preLastValue a) in
  ((1 <= L <= 5)%nat /\ steps (base m) L = true /\
   forall j, (L < j <= 5)%nat -> steps (base m) j = false) /\
  (forall a, 1 <= a <= 10 ->
     (Resilient.legal_attack m a = true <->
      lastOperator <> 3 \/ preLastValue mod a = 0)) /\
  spec_worstDist target lastOperator preLastValue = Some (worst_dist m) /\
  (exists a, 1 <= a <= 10 /\ Resilient.legal_attack m a = true /\
             worst_dist m = attackDist a) /\
  (forall a, 1 <= a <= 10 -> Resilient.legal_attack m a = true ->
             attackDist a <= worst_dist m).
Proof.
  intros C L lastOperator preLastValue attackDist.
  apply constraintsR_feasible in C.
  destruct (last_step _ _ _ C) as (HL & Hb & Ha & Epre & Ecode & _).
  fold L in HL, Hb, Ha, Epre, Ecode.
  fold preLastValue in Epre. fold lastOperator in Ecode.
  assert (Legal : forall a, 1 <= a <= 10 ->
            Resilient.legal_attack m a = spec_legal lastOperator
                                                    preLastValue a).
  { intros a Ra. rewrite legal_attack_as_spec by lia.
    now rewrite Epre, Ecode. }
  assert (Dist : forall a, 1 <= a <= 10 ->
            Resilient.legal_attack m a = true ->
            att_dist m a = attackDist a).
  { intros a Ra Hl. destruct (legal_attack_result _ _ _ a C Ra Hl) as (_ & D).
    now rewrite Epre, Ecode in D. }
  assert (Att : exists a, 1 <= a <= 10 /\
                          Resilient.legal_attack m a = true /\
                          worst_dist m = attackDist a).
  { destruct (r_attained _ _ _ C) as (a & Ra & Hl & E).
    exists a. rewrite <- (Dist a Ra Hl). auto. }
  assert (Ub : forall a, 1 <= a <= 10 ->
                         Resilient.legal_attack m a = true ->
                         attackDist a <= worst_dist m).
  { intros a Ra Hl. rewrite <- (Dist a Ra Hl). now apply (r_upper _ _ _ C). }
  split; [|split; [|split; [|split; [exact Att | exact Ub]]]].
  - split; [exact HL|]. split; [apply Hb; lia|].
    intros j Hj. apply Ha. lia.
  - intros a Ra. rewrite legal_attack_spec, Epre, Ecode.
    now rewrite mod_pos by lia.
  - unfold spec_worstDist. apply max_of_spec.
    + destruct Att as (a & Ra & Hl & E). apply in_map_iff.
      exists a. split; [now rewrite E|]. apply filter_In.
      split; [now apply in_one_to_ten|]. now rewrite <- Legal.
    + intros d Hd. apply in_map_iff in Hd as (a & <- & Hin).
      apply filter_In in Hin as (Hin & Hl). apply in_one_to_ten in Hin.
      apply Ub; trivial. now rewrite Legal.
Qed.

Lemma C3_worst_dist_is_max_over_legal_attacks_witness :
  spec_worstDist 0 0 1 = Some (worst_dist one_plus_3) /\
  spec_worstDist 13 3 13 = Some (worst_dist thirteen).
Proof.
  split.
  - apply (C3_worst_dist_is_max_over_legal_attacks
             example_pool 0 one_plus_3 eq_refl).
  - apply (C3_worst_dist_is_max_over_legal_attacks
             pool_13 13 thirteen eq_refl).
Defined.

(** C7, as the program has it.  In every assignment that satisfies the
    constraints of [CountingStrategyResilient]: when the last executed
    operation is an addition, a subtraction or a multiplication all ten
    attack values are legal; when it is a division, attack a is legal
    exactly when it divides the value before the last step.  Attack 1 is
    legal in both cases, so the set of legal attacks is never empty. *)
Theorem C7_legal_attacks (numbers : list Z) (target : Z) (m : ModelR) :
  Resilient.constraints numbers target m = true ->
  let L := Z.to_nat (last_op m) in
  let lastOperator := ops (base m) (L - 1)%nat in
  let preLastValue := vals (base m) (L - 1)%nat in
  (lastOperator <> 3 ->
   forall a, 1 <= a <= 10 -> Resilient.legal_attack m a = true) /\
  (lastOperator = 3 ->
   forall a, 1 <= a <= 10 ->
             (Resilient.legal_attack m a = true <-> preLastValue mod a = 0)) /\
  Resilient.legal_attack m 1 = true /\
  (1 <= length (filter (Resilient.legal_attack m) Resilient.attacks))%nat.
Proof.
  intros C L lastOperator preLastValue.
  apply constraintsR_feasible in C.
  destruct (last_step _ _ _ C) as (_ & _ & _ & Epre & Ecode & _).
  fold L in Epre, Ecode.
  fold preLastValue in Epre. fold lastOperator in Ecode.
  split; [|split; [|split; [apply legal_attack_1|]]].
  - intros Hop a _. apply legal_attack_no_division. now rewrite Ecode.
  - intros Hop a Ra. rewrite legal_attack_spec, Epre, Ecode.
    rewrite mod_pos by lia. intuition.
  - assert (Hin : In 1 (filter (Resilient.legal_attack m) Resilient.attacks)).
    { apply filter_In. split; [apply in_attacks; lia|].
      apply legal_attack_1. }
    destruct (filter (Resilient.legal_attack m) Resilient.attacks);
      [destruct Hin | cbn; lia].
Qed.

Lemma C7_legal_attacks_witness :
  (Resilient.legal_attack thirteen 2 = true <-> 13 mod 2 = 0) /\
  Resilient.legal_attack one_plus_3 7 = true.
Proof.
  destruct (C7_legal_attacks pool_13 13 thirteen eq_refl) as (_ & D & _).
  destruct (C7_legal_attacks example_pool 0 one_plus_3 eq_refl) as (N & _).
  split.
  - apply D; [reflexivity | lia].
  - apply N; [discriminate | lia].
Defined.

(** ** Worst case against actual outcome (C4) *)

(** C4, as the program has it.  In every assignment that satisfies the
    constraints of [CountingStrategyResilient] and whose last executed
    step takes an operand between 1 and 10, [worst_dist] is at least the
    distance of the final value from the target: the operand actually
    used is then one of the legal attacks. *)
Theorem C4_worst_dist_ge_distance_small_operand
        (numbers : list Z) (target : Z) (m : ModelR) :
  Resilient.constraints numbers target m = true ->
  let L := Z.to_nat (last_op m) in
  let operand := Select (arr numbers) (ids (base m) L) in
  1 <= operand <= 10 ->
  dist_to_target target (base m) <= worst_dist m.
Proof.
  intros C L operand Ro. apply constraintsR_feasible in C.
  destruct (last_step _ _ _ C) as (HL & Hb & _ & Epre & Ecode & E5).
  fold L in HL, Hb, Epre, Ecode, E5.
  pose proof (f_trans _ _ (r_base _ _ _ C) L ltac:(lia)) as T.
  apply transition_executed in T; [|apply Hb; lia].
  cbn zeta in T. fold operand in T. rewrite <- Epre, <- Ecode in T.
  destruct T as (V & D).
  assert (Hl : Resilient.legal_attack m operand = true).
  { apply legal_attack_spec.
    destruct (Z.eq_dec (Resilient.last_op_code m) 3) as [E|]; [|now left].
    right. apply D; lia. }
  destruct (legal_attack_result _ _ _ operand C Ro Hl) as (_ & Da).
  unfold dist_to_target. rewrite Abs_abs, E5, V, <- Da.
  now apply (r_upper _ _ _ C).
Qed.

Lemma C4_worst_dist_ge_distance_small_operand_witness :
  dist_to_target 0 (base one_plus_3) <= worst_dist one_plus_3.
Proof.
  apply (C4_worst_dist_ge_distance_small_operand example_pool 0 one_plus_3
           eq_refl).
  change (1 <= 3 <= 10). lia.
Defined.

(** ** Lexicographic optimality (C1, C2) *)

Lemma lex_le_pair (a1 a2 b1 b2 : Z) :
  lex_le [a1; a2] [b1; b2] <-> a1 < b1 \/ (a1 = b1 /\ a2 <= b2).
Proof. cbn. lia. Qed.

Lemma returns_spec (numbers : list Z) (target : Z) (m : Model) :
  Plain.returns numbers target m <->
  Plain.constraints numbers m = true /\
  forall m', Plain.constraints numbers m' = true ->
    let d := dist_to_target target in
    d m < d m' \/
    (d m = d m' /\
     (if d m =? 0 then used_count m else 0) <=
     (if d m' =? 0 then used_count m' else 0)).
Proof.
  unfold Plain.returns, check, optimal, objective_values, Plain.objectives.
  cbn [map]. split; intros (C & O); (split; [exact C|]); intros m' C';
    specialize (O m' C'); now apply lex_le_pair.
Qed.

Lemma returnsR_spec (numbers : list Z) (target : Z) (m : ModelR) :
  Resilient.returns numbers target m <->
  Resilient.constraints numbers target m = true /\
  forall m', Resilient.constraints numbers target m' = true ->
    worst_dist m < worst_dist m' \/
    (worst_dist m = worst_dist m' /\
     (if worst_dist m =? 0 then used_count (base m) else 0) <=
     (if worst_dist m' =? 0 then used_count (base m') else 0)).
Proof.
  unfold Resilient.returns, check, optimal, objective_values,
    Resilient.objectives.
  cbn [map]. split; intros (C & O); (split; [exact C|]); intros m' C';
    specialize (O m' C'); now apply lex_le_pair.
Qed.

Lemma dist_to_target_nonneg (target : Z) (m : Model) :
  0 <= dist_to_target target m.
Proof. apply Abs_nonneg. Qed.

(** C1.  The model [CountingStrategy] reads back from the optimiser
    satisfies the constraints; its distance to the target is at most that
    of every assignment satisfying them; when that distance is 0, its
    number of executed steps is at most that of every such assignment at
    distance 0; when it is not 0, the second objective is the constant 0
    and the step count plays no role: every assignment satisfying the
    constraints at the same distance is as good an answer. *)
Theorem C1_solve_lexicographic_optimum
        (numbers : list Z) (target : Z) (m : Model) :
  Plain.returns numbers target m ->
  Plain.constraints numbers m = true /\
  (forall m', Plain.constraints numbers m' = true ->
              dist_to_target target m <= dist_to_target target m') /\
  (dist_to_target target m = 0 ->
   forall m', Plain.constraints numbers m' = true ->
              dist_to_target target m' = 0 ->
              used_count m <= used_count m') /\
  (dist_to_target target m <> 0 ->
   nth 1 (objective_values Model (Plain.objectives target) m) 0 = 0 /\
   forall m', Plain.constraints numbers m' = true ->
              dist_to_target target m' = dist_to_target target m ->
              Plain.returns numbers target m').
Proof.
  intros R. apply returns_spec in R as (C & O). cbn zeta in O.
  assert (Min : forall m', Plain.constraints numbers m' = true ->
                  dist_to_target target m <= dist_to_target target m').
  { intros m' C'. specialize (O m' C'). lia. }
  split; [exact C|]. split; [exact Min|]. split.
  - intros D m' C' D'. specialize (O m' C').
    rewrite D, D' in O. cbn [Z.eqb] in O. lia.
  - intros D. split.
    + cbn. destruct (Z.eqb_spec (dist_to_target target m) 0);
        [contradiction | reflexivity].
    + intros m' C' D'. apply returns_spec. split; [exact C'|].
      intros m'' C''. cbn zeta. specialize (Min m'' C''). rewrite D'.
      destruct (Z.eqb_spec (dist_to_target target m) 0); [contradiction|].
      destruct (Z.eqb_spec (dist_to_target target m'') 0); lia.
Qed.

Lemma pick_50_returns : Plain.returns example_pool 50 pick_50.
Proof.
  apply returns_spec. split; [reflexivity|]. intros m' C' d.
  apply constraints_feasible in C'.
  pose proof (dist_to_target_nonneg 50 m').
  pose proof (used_count_ge_1 _ _ C').
  change (d pick_50) with 0. change (used_count pick_50) with 1.
  cbn [Z.eqb]. subst d.
  destruct (Z.eqb_spec (dist_to_target 50 m') 0); lia.
Qed.

(** With the pool of zeros nothing but 0 can be computed. *)
Lemma zeros_vals (m : Model) :
  feasible zeros m -> forall k, (k < 6)%nat -> vals m k = 0.
Proof.
  intros F.
  assert (Z0 : forall j, (j < 6)%nat -> Select (arr zeros) (ids m j) = 0).
  { intros j Hj. pose proof (f_ids _ _ F j Hj).
    rewrite arr_select by lia. generalize (Z.to_nat (ids m j)). intros n.
    do 6 (destruct n as [|n]; [reflexivity|]). now destruct n. }
  induction k as [|k IH]; intros Hk.
  - rewrite (f_first _ _ F). apply Z0. lia.
  - pose proof (f_trans _ _ F (S k) ltac:(lia)) as T.
    replace (S k - 1)%nat with k in * by lia.
    destruct (steps m (S k)) eqn:E.
    + apply (transition_executed zeros m (S k) E) in T. cbn zeta in T.
      replace (S k - 1)%nat with k in T by lia.
      rewrite Z0, IH in T by lia. destruct T as (V & D).
      unfold apply_result in V.
      destruct (Z.eqb_spec (ops m k) 0); [lia|].
      destruct (Z.eqb_spec (ops m k) 1); [lia|].
      destruct (Z.eqb_spec (ops m k) 2); [lia|].
      destruct D; trivial.
    + apply (transition_skipped zeros m (S k) E) in T.
      replace (S k - 1)%nat with k in T by lia. rewrite T. apply IH. lia.
Qed.

Lemma zeros_dist (m : Model) :
  feasible zeros m -> dist_to_target 1 m = 1.
Proof.
  intros F. unfold dist_to_target. now rewrite (zeros_vals m F 5) by lia.
Qed.

Lemma zeros_returns (m : Model) :
  Plain.constraints zeros m = true -> Plain.returns zeros 1 m.
Proof.
  intros C. apply returns_spec. split; [exact C|]. intros m' C' d. subst d.
  apply constraints_feasible in C, C'.
  rewrite !zeros_dist by trivial. cbn. lia.
Qed.

Lemma C1_solve_lexicographic_optimum_witness :
  (forall m', Plain.constraints example_pool m' = true ->
              dist_to_target 50 m' = 0 -> 1 <= used_count m') /\
  Plain.returns zeros 1 all_six /\ used_count all_six = 6.
Proof.
  destruct (C1_solve_lexicographic_optimum example_pool 50 pick_50
              pick_50_returns) as (_ & _ & U & _).
  destruct (C1_solve_lexicographic_optimum zeros 1 (only_step_0 zeros 0)
              (zeros_returns (only_step_0 zeros 0) eq_refl))
    as (_ & _ & _ & A).
  split; [exact (U eq_refl)|]. split; [|reflexivity].
  apply A; [discriminate | reflexivity | reflexivity].
Defined.

(** C2.  The model [CountingStrategyResilient] reads back from the
    optimiser satisfies the resilient constraints, which force step 1 to
    be executed; its [worst_dist] is at most that of every assignment
    satisfying them; its number of executed steps is minimal among those
    with [worst_dist] 0 when its own is 0, and is not looked at
    otherwise: the second objective is then the constant 0 and every
    assignment satisfying the constraints with the same [worst_dist] is
    as good an answer. *)
Theorem C2_solveResilient_lexicographic_optimum
        (numbers : list Z) (target : Z) (m : ModelR) :
  Resilient.returns numbers target m ->
  Resilient.constraints numbers target m = true /\
  (forall m', Resilient.constraints numbers target m' = true ->
              steps (base m') 1%nat = true /\
              worst_dist m <= worst_dist m') /\
  (worst_dist m = 0 ->
   forall m', Resilient.constraints numbers target m' = true ->
              worst_dist m' = 0 ->
              used_count (base m) <= used_count (base m')) /\
  (worst_dist m <> 0 ->
   nth 1 (objective_values ModelR Resilient.objectives m) 0 = 0 /\
   forall m', Resilient.constraints numbers target m' = true ->
              worst_dist m' = worst_dist m ->
              Resilient.returns numbers target m').
Proof.
  intros R. apply returnsR_spec in R as (C & O).
  assert (Min : forall m', Resilient.constraints numbers target m' = true ->
                           worst_dist m <= worst_dist m').
  { intros m' C'. specialize (O m' C'). lia. }
  split; [exact C|]. split; [|split].
  - intros m' C'. split; [|now apply Min].
    apply constraintsR_feasible in C'. apply (r_step1 _ _ _ C').
  - intros D m' C' D'. specialize (O m' C').
    rewrite D, D' in O. cbn [Z.eqb] in O. lia.
  - intros D. split.
    + cbn. destruct (Z.eqb_spec (worst_dist m) 0);
        [contradiction | reflexivity].
    + intros m' C' D'. apply returnsR_spec. split; [exact C'|].
      intros m'' C''. specialize (Min m'' C''). rewrite D'.
      destruct (Z.eqb_spec (worst_dist m) 0); [contradiction|].
      destruct (Z.eqb_spec (worst_dist m'') 0); lia.
Qed.

(** An assignment with [worst_dist] 0 and two executed steps cannot be
    beaten. *)
Lemma returnsR_perfect (numbers : list Z) (target : Z) (m : ModelR) :
  Resilient.constraints numbers target m = true ->
  worst_dist m = 0 -> used_count (base m) = 2 ->
  Resilient.returns numbers target m.
Proof.
  intros C W U. apply returnsR_spec. split; [exact C|]. intros m' C'.
  apply constraintsR_feasible in C'.
  pose proof (worst_dist_nonneg _ _ _ C').
  pose proof (used_count_ge_2 _ _ _ C').
  rewrite W, U. cbn [Z.eqb].
  destruct (Z.eqb_spec (worst_dist m') 0); lia.
Qed.

Lemma thirteen_returns : Resilient.returns pool_13 13 thirteen.
Proof. now apply returnsR_perfect. Qed.

Lemma C2_solveResilient_lexicographic_optimum_witness :
  worst_dist thirteen <= worst_dist (add_first_two pool_13 13) /\
  used_count (base thirteen) <= used_count (base thirteen).
Proof.
  destruct (C2_solveResilient_lexicographic_optimum pool_13 13 thirteen
              thirteen_returns) as (C & Min & U & _).
  split.
  - apply (Min (add_first_two pool_13 13) eq_refl).
  - apply (U eq_refl thirteen C eq_refl).
Defined.

(** C4 fails as stated: with six 13s and target 13 the optimiser can
    answer 13 / 13 = 1, at distance 12 from the target, while the only
    legal attack, 1, gives 13 / 1 = 13 and so a [worst_dist] of 0. *)
Lemma C4_counterexample :
  Resilient.returns pool_13 13 thirteen /\
  dist_to_target 13 (base thirteen) = 12 /\
  worst_dist thirteen = 0 /\
  ~ worst_dist thirteen >= dist_to_target 13 (base thirteen).
Proof.
  split; [exact thirteen_returns|]. repeat split. cbn. lia.
Qed.

(** C7 fails as stated: in the same assignment the last operation is a
    division of 13, and the attacks 2..10 are illegal. *)
Lemma C7_counterexample :
  Resilient.constraints pool_13 13 thirteen = true /\
  Resilient.last_op_code thirteen = 3 /\
  In 2 Resilient.attacks /\
  Resilient.legal_attack thirteen 2 = false /\
  filter (Resilient.legal_attack thirteen) Resilient.attacks = [1].
Proof. repeat split. cbn. tauto. Qed.

(** ** Pools of any size, and what gets printed (C6) *)

Lemma pool6_select (numbers : list Z) (i : Z) :
  0 <= i < 6 -> Select (arr (pool6 numbers)) i = Select (arr numbers) i.
Proof.
  intros Hi. rewrite !arr_select by lia.
  assert (Hn : (Z.to_nat i < 6)%nat) by lia. revert Hn.
  generalize (Z.to_nat i). intros n Hn.
  do 6 (destruct n as [|n]; [reflexivity|]). lia.
Qed.

Lemma feasible_ext (n1 n2 : list Z) (m : Model) :
  (forall i, 0 <= i < 6 -> Select (arr n1) i = Select (arr n2) i) ->
  feasible n1 m -> feasible n2 m.
Proof.
  intros E F. destruct F as [F1 F2 F3 F4 F5 F6 F7].
  constructor; trivial.
  - rewrite F1. apply E, F2. lia.
  - intros k Hk. specialize (F6 k Hk). unfold transition in *.
    rewrite <- (E (ids m k)); [exact F6 | apply F2; lia].
Qed.

Lemma constraints_pool6 (numbers : list Z) (m : Model) :
  Plain.constraints (pool6 numbers) m = Plain.constraints numbers m.
Proof.
  apply eq_true_iff_eq. rewrite !constraints_feasible.
  split; apply feasible_ext; intros i Hi;
    [|symmetry]; now apply pool6_select.
Qed.

Lemma constraintsR_pool6 (numbers : list Z) (target : Z) (m : ModelR) :
  Resilient.constraints (pool6 numbers) target m =
  Resilient.constraints numbers target m.
Proof.
  apply eq_true_iff_eq. rewrite !constraintsR_feasible.
  split; intros [B H1 H2 H3 H4 H5 H6]; constructor; trivial;
    revert B; apply feasible_ext; intros i Hi;
    [|symmetry]; now apply pool6_select.
Qed.

Lemma check_ext (M : Type) (a1 a2 : M -> bool) (objs : list (M -> Z))
      (r : CheckSatResult M) :
  (forall m, a1 m = a2 m) -> check M a1 objs r -> check M a2 objs r.
Proof.
  intros E. destruct r as [m| |]; cbn; trivial.
  - intros (C & O). split; [now rewrite <- E|].
    intros m' C'. apply O. now rewrite E.
  - intros U m. now rewrite <- E.
Qed.

Lemma print_steps_ext (n1 n2 : list Z) (m : Model) (js : list nat) :
  (forall j, In j js ->
             Select (arr n1) (ids m j) = Select (arr n2) (ids m j)) ->
  print_steps n1 m js = print_steps n2 m js.
Proof.
  induction js as [|j js IH]; intros E; cbn [print_steps]; trivial.
  rewrite IH by (intros; apply E; now right).
  now rewrite (E j (or_introl eq_refl)).
Qed.

(** Under the constraints every operator code is a key of
    [OPERATION_IDS]: the printing loop cannot fail. *)
Lemma print_steps_some (numbers : list Z) (m : Model) (js : list nat) :
  feasible numbers m -> (forall j, In j js -> (1 <= j < 6)%nat) ->
  exists ls, print_steps numbers m js = Some ls.
Proof.
  intros F. induction js as [|j js IH]; intros Hjs; cbn [print_steps].
  - now exists [].
  - destruct (steps m j); [|now exists []].
    pose proof (f_ops _ _ F (j - 1)%nat) as O.
    specialize (Hjs j (or_introl eq_refl)) as Hj.
    specialize (O ltac:(lia)).
    destruct IH as (ls & ->); [intros; apply Hjs; now right|].
    unfold OPERATION_IDS.
    destruct (Z.eqb_spec (ops m (j - 1)%nat) 0); [eexists; reflexivity|].
    destruct (Z.eqb_spec (ops m (j - 1)%nat) 1); [eexists; reflexivity|].
    destruct (Z.eqb_spec (ops m (j - 1)%nat) 2); [eexists; reflexivity|].
    destruct (Z.eqb_spec (ops m (j - 1)%nat) 3); [eexists; reflexivity|].
    lia.
Qed.

Lemma print_model_pool6 (numbers : list Z) (target : Z) (m : Model) :
  feasible numbers m ->
  Plain.print_model (pool6 numbers) target m =
  Plain.print_model numbers target m.
Proof.
  intros F. unfold Plain.print_model.
  rewrite (print_steps_ext (pool6 numbers) numbers).
  - rewrite pool6_select; [reflexivity | apply (f_ids _ _ F); lia].
  - intros j Hj. apply in_range in Hj.
    apply pool6_select, (f_ids _ _ F). lia.
Qed.

Lemma print_modelR_pool6 (numbers : list Z) (target : Z) (m : ModelR) :
  feasible numbers (base m) ->
  Resilient.print_model (pool6 numbers) target m =
  Resilient.print_model numbers target m.
Proof.
  intros F. unfold Resilient.print_model.
  rewrite (print_steps_ext (pool6 numbers) numbers).
  - rewrite pool6_select; [reflexivity | apply (f_ids _ _ F); lia].
  - intros j Hj. apply in_range in Hj.
    apply pool6_select, (f_ids _ _ F). lia.
Qed.

Lemma CountingStrategy_pool6 (numbers : list Z) (target : Z) (out : outcome) :
  Plain.CountingStrategy numbers target out <->
  Plain.CountingStrategy (pool6 numbers) target out.
Proof.
  unfold Plain.CountingStrategy. split; intros (r & Hr & ->).
  - exists r. split.
    + revert Hr. apply check_ext. intros m. symmetry.
      apply constraints_pool6.
    + destruct r as [m| |]; trivial. symmetry. apply print_model_pool6.
      destruct Hr as (C & _). now apply constraints_feasible.
  - exists r. split.
    + revert Hr. apply check_ext. intros m. apply constraints_pool6.
    + destruct r as [m| |]; trivial. apply print_model_pool6.
      destruct Hr as (C & _). rewrite constraints_pool6 in C.
      now apply constraints_feasible.
Qed.

Lemma CountingStrategyResilient_pool6
      (numbers : list Z) (target : Z) (out : outcome) :
  Resilient.CountingStrategyResilient numbers target out <->
  Resilient.CountingStrategyResilient (pool6 numbers) target out.
Proof.
  unfold Resilient.CountingStrategyResilient. split; intros (r & Hr & ->).
  - exists r. split.
    + revert Hr. apply check_ext. intros m. symmetry.
      apply constraintsR_pool6.
    + destruct r as [m| |]; trivial. symmetry. apply print_modelR_pool6.
      destruct Hr as (C & _). apply constraintsR_base in C.
      now apply constraints_feasible.
  - exists r. split.
    + revert Hr. apply check_ext. intros m. apply constraintsR_pool6.
    + destruct r as [m| |]; trivial. apply print_modelR_pool6.
      destruct Hr as (C & _). rewrite constraintsR_pool6 in C.
      apply constraintsR_base in C. now apply constraints_feasible.
Qed.

Lemma returns_perfect (numbers : list Z) (target : Z) (m : Model) :
  Plain.constraints numbers m = true ->
  dist_to_target target m = 0 -> used_count m = 1 ->
  Plain.returns numbers target m.
Proof.
  intros C D U. apply returns_spec. split; [exact C|]. intros m' C' d.
  subst d. apply constraints_feasible in C'.
  pose proof (dist_to_target_nonneg target m').
  pose proof (used_count_ge_1 _ _ C').
  rewrite D, U. cbn [Z.eqb].
  destruct (Z.eqb_spec (dist_to_target target m') 0); lia.
Qed.

Lemma report_of_model (numbers : list Z) (target : Z) (m : Model) :
  Plain.constraints numbers m = true ->
  exists ls,
    Plain.print_model numbers target m =
    Printed (Initial_number (vals m 0%nat)
             :: ls ++ [Final_number (vals m 5%nat);
                       Distance_from_goal (dist_to_target target m)]).
Proof.
  intros C. apply constraints_feasible in C.
  destruct (print_steps_some numbers m (range 1 6) C) as (ls & E).
  { intros j Hj. now apply in_range in Hj. }
  exists ls. unfold Plain.print_model.
  now rewrite E, <- (f_first _ _ C).
Qed.

Lemma report_of_modelR (numbers : list Z) (target : Z) (m : ModelR) :
  Resilient.constraints numbers target m = true ->
  exists ls,
    Resilient.print_model numbers target m =
    Printed (Initial_number (vals (base m) 0%nat)
             :: ls ++ [Final_number (vals (base m) 5%nat);
                       Distance_from_goal (dist_to_target target (base m));
                       Distance_after_attack (worst_dist m)]).
Proof.
  intros C. apply constraintsR_base, constraints_feasible in C.
  destruct (print_steps_some numbers (base m) (range 1 6) C) as (ls & E).
  { intros j Hj. now apply in_range in Hj. }
  exists ls. unfold Resilient.print_model.
  now rewrite E, <- (f_first _ _ C).
Qed.

Lemma pool6_of_six (numbers : list Z) :
  length numbers = 6%nat -> pool6 numbers = numbers.
Proof.
  intros H.
  do 6 (destruct numbers as [|? numbers]; [discriminate|]).
  destruct numbers; [reflexivity | discriminate].
Qed.

Lemma select_in_pool6 (numbers : list Z) (i : Z) :
  0 <= i < 6 -> In (Select (arr numbers) i) (pool6 numbers).
Proof.
  intros Hi. rewrite arr_select by lia. unfold pool6.
  apply in_map_iff. exists (Z.to_nat i). split; [reflexivity|].
  apply in_range. lia.
Qed.

(** The numbers on the step lines are the operands the model selects. *)
Lemma print_steps_numbers (numbers : list Z) (m : Model) (js : list nat) :
  forall ls, print_steps numbers m js = Some ls ->
  forall l n, In l ls -> In n (reported_number l) ->
              exists j, In j js /\ n = Select (arr numbers) (ids m j).
Proof.
  induction js as [|j js IH]; intros ls P l n Hl Hn; cbn [print_steps] in P.
  - injection P as <-. destruct Hl.
  - destruct (steps m j); [|injection P as <-; destruct Hl].
    destruct (OPERATION_IDS (ops m (j - 1)%nat)); [|discriminate].
    destruct (print_steps numbers m js) as [ls'|] eqn:E; [|discriminate].
    injection P as <-. destruct Hl as [<-|Hl].
    + destruct Hn as [<-|[]]. exists j. split; [now left | reflexivity].
    + destruct (IH ls' eq_refl l n Hl Hn) as (j' & Hj' & ->).
      exists j'. split; [now right | reflexivity].
Qed.

Lemma reported_in_pool6 (numbers : list Z) (m : Model) (ls tail : list line) :
  feasible numbers m ->
  print_steps numbers m (range 1 6) = Some ls ->
  (forall l, In l tail -> reported_number l = []) ->
  forall n,
    In n (reported_numbers
            (Printed (Initial_number (Select (arr numbers) (ids m 0%nat))
                      :: ls ++ tail))) ->
    In n (pool6 numbers).
Proof.
  intros F P T n Hn. cbn [reported_numbers] in Hn.
  apply in_flat_map in Hn as (l & Hl & Hn).
  destruct Hl as [<-|Hl].
  - destruct Hn as [<-|[]]. apply select_in_pool6, (f_ids _ _ F). lia.
  - apply in_app_or in Hl as [Hl|Hl].
    + destruct (print_steps_numbers _ _ _ _ P l n Hl Hn) as (j & Hj & ->).
      apply in_range in Hj. apply select_in_pool6, (f_ids _ _ F). lia.
    + rewrite (T l Hl) in Hn. destruct Hn.
Qed.

Lemma print_model_numbers (numbers : list Z) (target : Z) (m : Model) :
  feasible numbers m ->
  forall n, In n (reported_numbers (Plain.print_model numbers target m)) ->
            In n (pool6 numbers).
Proof.
  intros F. unfold Plain.print_model.
  destruct (print_steps numbers m (range 1 6)) as [ls|] eqn:P;
    [|intros n []].
  apply (reported_in_pool6 numbers m ls _ F P).
  intros l [<-|[<-|[]]]; reflexivity.
Qed.

Lemma print_modelR_numbers (numbers : list Z) (target : Z) (m : ModelR) :
  feasible numbers (base m) ->
  forall n, In n (reported_numbers (Resilient.print_model numbers target m)) ->
            In n (pool6 numbers).
Proof.
  intros F. unfold Resilient.print_model.
  destruct (print_steps numbers (base m) (range 1 6)) as [ls|] eqn:P;
    [|intros n []].
  apply (reported_in_pool6 numbers (base m) ls _ F P).
  intros l [<-|[<-|[<-|[]]]]; reflexivity.
Qed.

(** With the target at one of the positions 0..5 of the pool as the
    solver sees it, the only answer is that position alone. *)
Lemma pool_entry_report (numbers : list Z) (target : Z) (m : Model) :
  In target (pool6 numbers) -> Plain.returns numbers target m ->
  Plain.print_model numbers target m =
  Printed [Initial_number target; Final_number target; Distance_from_goal 0].
Proof.
  intros Hin R. apply returns_spec in R as (C & O).
  apply constraints_feasible in C.
  unfold pool6 in Hin. apply in_map_iff in Hin as (i & E & Hi).
  apply in_range in Hi.
  set (m0 := only_step_0 numbers (Z.of_nat i)).
  assert (F0 : feasible numbers m0) by (apply only_step_0_feasible; lia).
  assert (D0 : dist_to_target target m0 = 0).
  { unfold dist_to_target, m0, only_step_0. cbn [vals].
    rewrite arr_select, Nat2Z.id, E, Abs_abs by lia. lia. }
  assert (U0 : used_count m0 = 1) by reflexivity.
  apply constraints_feasible in F0. specialize (O m0 F0). cbn zeta in O.
  rewrite D0, U0 in O. cbn [Z.eqb] in O.
  pose proof (dist_to_target_nonneg target m) as N.
  pose proof (used_count_ge_1 _ _ C) as G.
  assert (D : dist_to_target target m = 0) by lia.
  rewrite D in O. cbn [Z.eqb] in O.
  assert (U : used_count m = 1) by lia.
  assert (S1 : steps m 1%nat = false).
  { rewrite used_count_unfold, (f_init _ _ C) in U.
    destruct (steps m 1%nat); [|reflexivity]. exfalso.
    destruct (steps m 2%nat), (steps m 3%nat), (steps m 4%nat),
      (steps m 5%nat); cbn in U; lia. }
  assert (V5 : vals m 5%nat = target).
  { unfold dist_to_target in D. rewrite Abs_abs in D. lia. }
  assert (V0 : vals m 5%nat = vals m 0%nat).
  { apply (vals_frozen numbers m 0 C); [|lia].
    intros j Hj. apply (steps_false_after numbers m 1 C S1). lia. }
  unfold Plain.print_model. change (range 1 6) with (seq 1 5).
  cbn [seq print_steps]. rewrite S1, <- (f_first _ _ C), <- V0, D, V5.
  reflexivity.
Qed.

(** C6 fails as stated, twice.  A pool with one entry, or with two, is not
    rejected: the search runs and a solution is printed.  And a default
    can be reported: with the pool 50 alone and target 0 every report is
    that of the number 0, which is not in the pool but is what the array
    holds at the five positions the pool does not fill. *)
Lemma C6_counterexample :
  length [50] <> 6%nat /\
  Plain.CountingStrategy [50] 50
    (Printed [Initial_number 50; Final_number 50; Distance_from_goal 0]) /\
  length [13; 13] <> 6%nat /\
  Resilient.CountingStrategyResilient [13; 13] 13
    (Printed [Initial_number 13; Step 1 "/" 13 1; Final_number 1;
              Distance_from_goal 12; Distance_after_attack 0]) /\
  ~ In 0 [50] /\
  Plain.CountingStrategy [50] 0
    (Printed [Initial_number 0; Final_number 0; Distance_from_goal 0]) /\
  (forall out, Plain.CountingStrategy [50] 0 out ->
               out = Printed [] \/
               out = Printed [Initial_number 0; Final_number 0;
                              Distance_from_goal 0]).
Proof.
  split; [discriminate|]. split; [|split; [discriminate|]].
  { exists (sat (only_step_0 [50] 0)). split; [|reflexivity].
    now apply returns_perfect. }
  split.
  { exists (sat thirteen). split; [|reflexivity].
    now apply returnsR_perfect. }
  split; [intros [E|[]]; discriminate|]. split.
  - exists (sat (only_step_0 [50] 1)). split; [|reflexivity].
    now apply returns_perfect.
  - intros out (r & Hr & ->). destruct r as [m| |]; auto. right.
    apply pool_entry_report; [cbn; tauto | exact Hr].
Qed.

(** C6, as the program has it.  Neither function looks at the size of the
    pool: a call behaves exactly as on the six-entry pool made of
    positions 0..5 of the list given, with 0 where the list has no entry
    (for a list of six entries, the list itself).  Whatever the pool, a
    call never dies in the dictionary lookup, and it either prints
    nothing or prints exactly the report of a model the optimiser
    answered, which satisfies every constraint; that report is never
    empty.  Every number a report shows as taken from the pool, the
    initial number and the operand of each step, is an entry of that
    six-entry pool: an entry of the list, or the filler 0 when the list
    is too short. *)
Theorem C6_pool_size_unchecked_and_only_models_reported
        (numbers : list Z) (target : Z) (out : outcome) :
  (Plain.CountingStrategy numbers target out <->
   Plain.CountingStrategy (pool6 numbers) target out) /\
  (Resilient.CountingStrategyResilient numbers target out <->
   Resilient.CountingStrategyResilient (pool6 numbers) target out) /\
  (length numbers = 6%nat -> pool6 numbers = numbers) /\
  (Plain.CountingStrategy numbers target out ->
   out <> KeyError /\
   (forall n, In n (reported_numbers out) -> In n (pool6 numbers)) /\
   (out = Printed [] \/
    exists m,
      Plain.returns numbers target m /\
      Plain.constraints numbers m = true /\
      out = Plain.print_model numbers target m /\
      out <> Printed [] /\
      exists ls,
        out = Printed (Initial_number (vals m 0%nat)
                       :: ls ++ [Final_number (vals m 5%nat);
                                 Distance_from_goal
                                   (dist_to_target target m)])))
  /\
  (Resilient.CountingStrategyResilient numbers target out ->
   out <> KeyError /\
   (forall n, In n (reported_numbers out) -> In n (pool6 numbers)) /\
   (out = Printed [] \/
    exists m,
      Resilient.returns numbers target m /\
      Resilient.constraints numbers target m = true /\
      out = Resilient.print_model numbers target m /\
      out <> Printed [] /\
      exists ls,
        out = Printed (Initial_number (vals (base m) 0%nat)
                       :: ls ++ [Final_number (vals (base m) 5%nat);
                                 Distance_from_goal
                                   (dist_to_target target (base m));
                                 Distance_after_attack (worst_dist m)]))).
Proof.
  split; [apply CountingStrategy_pool6|].
  split; [apply CountingStrategyResilient_pool6|].
  split; [apply pool6_of_six|].
  split; intros (r & Hr & ->); destruct r as [m| |];
    try (split; [discriminate|]; split; [intros n []|]; now left).
  - destruct (report_of_model numbers target m (proj1 Hr)) as (ls & E).
    split; [rewrite E; discriminate|]. split.
    + apply print_model_numbers. apply constraints_feasible, Hr.
    + right. exists m. split; [exact Hr|]. split; [exact (proj1 Hr)|].
      split; [reflexivity|]. split; [rewrite E; discriminate|].
      exists ls. exact E.
  - destruct (report_of_modelR numbers target m (proj1 Hr)) as (ls & E).
    split; [rewrite E; discriminate|]. split.
    + apply print_modelR_numbers.
      apply constraints_feasible, constraintsR_base with target, Hr.
    + right. exists m. split; [exact Hr|]. split; [exact (proj1 Hr)|].
      split; [reflexivity|]. split; [rewrite E; discriminate|].
      exists ls. exact E.
Qed.

Lemma C6_pool_size_unchecked_and_only_models_reported_witness :
  Plain.CountingStrategy (pool6 [50]) 50
    (Printed [Initial_number 50; Final_number 50; Distance_from_goal 0]) /\
  (forall n, In n [50] -> In n (pool6 [50])).
Proof.
  assert (H : Plain.CountingStrategy [50] 50
                (Printed [Initial_number 50; Final_number 50;
                          Distance_from_goal 0])).
  { exists (sat (only_step_0 [50] 0)). split; [|reflexivity].
    now apply returns_perfect. }
  destruct (C6_pool_size_unchecked_and_only_models_reported [50] 50
              (Printed [Initial_number 50; Final_number 50;
                        Distance_from_goal 0]))
    as (P & _ & _ & Q & _).
  split; [now apply P|]. now apply (Q H).
Defined.

(** ** The optimiser always has an answer to give

    Both objective vectors are bounded below on the models of the
    constraints, and both constraint sets have a model whatever the pool
    and the target, so a lexicographic optimum exists: the hypothesis
    [returns] of C1 and C2 can be met for every input. *)

Lemma minimum_exists (M : Type) (P : M -> Prop) (f : M -> Z) :
  (forall m, P m -> 0 <= f m) -> (exists m, P m) ->
  exists m, P m /\ forall m', P m' -> f m <= f m'.
Proof.
  intros Hpos (m0 & H0).
  assert (G : forall n m, P m -> (Z.to_nat (f m) < n)%nat ->
                exists m1, P m1 /\ forall m', P m' -> f m1 <= f m').
  { induction n as [|n IH]; intros m Hm Hn; [lia|].
    destruct (classic (exists m', P m' /\ f m' < f m))
      as [(m' & Hm' & Hlt)|None].
    - apply (IH m' Hm'). pose proof (Hpos _ Hm). pose proof (Hpos _ Hm').
      lia.
    - exists m. split; [exact Hm|]. intros m' Hm'.
      destruct (Z.le_gt_cases (f m) (f m')); trivial.
      exfalso. apply None. exists m'. split; [exact Hm' | lia]. }
  apply (G (S (Z.to_nat (f m0))) m0 H0). lia.
Qed.

Lemma optimum_exists (M : Type) (assertions : M -> bool) (f1 f2 : M -> Z) :
  (forall m, assertions m = true -> 0 <= f1 m /\ 0 <= f2 m) ->
  (exists m, assertions m = true) ->
  exists m, check M assertions [f1; f2] (sat m).
Proof.
  intros Hpos Hne.
  destruct (minimum_exists M (fun m => assertions m = true) f1)
    as (m1 & A1 & Min1); [intros m Hm; now apply Hpos | exact Hne|].
  destruct (minimum_exists M
              (fun m => assertions m = true /\ f1 m = f1 m1) f2)
    as (m2 & (A2 & E2) & Min2).
  { intros m (Hm & _). now apply Hpos. }
  { now exists m1. }
  exists m2. split; [exact A2|]. intros m' A'.
  unfold objective_values. cbn [map]. apply lex_le_pair.
  specialize (Min1 m' A').
  destruct (Z.eq_dec (f1 m') (f1 m1)) as [E|]; [right | left; lia].
  split; [lia|]. apply Min2. now split.
Qed.

Lemma add_first_two_feasible (numbers : list Z) (target : Z) :
  feasibleR numbers target (add_first_two numbers target).
Proof.
  set (dist := fun a => Abs (target - (Select (arr numbers) 0 + a))).
  pose proof (fold_left_max_spec (map dist (tl Resilient.attacks)) (dist 1))
    as (Hin & Hub).
  change (dist 1 :: map dist (tl Resilient.attacks))
    with (map dist Resilient.attacks) in Hin, Hub.
  assert (Legal : forall a,
             Resilient.legal_attack (add_first_two numbers target) a = true)
    by reflexivity.
  constructor.
  - constructor; cbn.
    + reflexivity.
    + intros i Hi. lia.
    + intros; lia.
    + intros i Hi. destruct (Nat.leb_spec i 1), (Nat.leb_spec (i - 1) 1);
        trivial; lia.
    + intros i j Hij _ _. lia.
    + intros k Hk. unfold transition. cbn.
      destruct k as [|[|k]]; [lia | apply Z.eqb_refl |].
      apply Z.eqb_refl.
    + reflexivity.
  - exists 1%nat. repeat split; trivial; lia.
  - reflexivity.
  - cbn. lia.
  - intros a Ha. rewrite Legal. split; [|reflexivity].
    intros _. apply Z.eqb_refl.
  - intros a Ha. apply Hub, in_map, in_attacks, Ha.
  - apply in_map_iff in Hin as (a & E & Ha). apply in_attacks in Ha.
    exists a. split; [exact Ha|]. split; [apply Legal|].
    symmetry. exact E.
Qed.

Lemma CountingStrategy_has_answer (numbers : list Z) (target : Z) :
  exists m, Plain.returns numbers target m.
Proof.
  apply optimum_exists.
  - intros m _. split; [apply dist_to_target_nonneg|].
    pose proof (used_count_bounds m).
    destruct (dist_to_target target m =? 0); lia.
  - exists (only_step_0 numbers 0).
    apply constraints_feasible, only_step_0_feasible. lia.
Qed.

Lemma CountingStrategyResilient_has_answer (numbers : list Z) (target : Z) :
  exists m, Resilient.returns numbers target m.
Proof.
  apply optimum_exists.
  - intros m C. apply constraintsR_feasible in C.
    split; [now apply worst_dist_nonneg with numbers target|].
    pose proof (used_count_bounds (base m)).
    destruct (worst_dist m =? 0); lia.
  - exists (add_first_two numbers target).
    apply constraintsR_feasible, add_first_two_feasible.
Qed.

(** * Further properties of the program *)

(** ** The arrays *)

(** X1.  Reading the pool array [arr] at any integer index gives the pool
    entry at that position when the list has one, and 0 otherwise: for a
    negative index as for one past the end of the list. *)
Theorem X1_arr_lookup (numbers : list Z) (i : Z) :
  Select (arr numbers) i =
  if (0 <=? i) && (i <? Z.of_nat (length numbers))
  then nth (Z.to_nat i) numbers 0 else 0.
Proof.
  unfold Select, arr. rewrite store_all_select.
  rewrite Z.add_0_l, Z.sub_0_r. reflexivity.
Qed.

(** X2.  [vals_arr] and [ops_arr] give back the partial results at
    indices 0..5 and the operator codes at indices 0..4, and 0 at every
    other index; so the two reads of the resilient solver fetch the value
    before step [last_op] and the operator of step [last_op] whenever
    [last_op] is between 1 and 5. *)
Theorem X2_vals_arr_ops_arr_lookup (m : ModelR) (i : Z) :
  Select (Resilient.vals_arr m) i =
    (if (0 <=? i) && (i <? 6) then vals (base m) (Z.to_nat i) else 0) /\
  Select (Resilient.ops_arr m) i =
    (if (0 <=? i) && (i <? 5) then ops (base m) (Z.to_nat i) else 0) /\
  (1 <= last_op m <= 5 ->
   Resilient.pre_last_val m = vals (base m) (Z.to_nat (last_op m - 1)) /\
   Resilient.last_op_code m = ops (base m) (Z.to_nat (last_op m - 1))).
Proof.
  assert (V : forall j,
    Select (Resilient.vals_arr m) j =
    if (0 <=? j) && (j <? 6) then vals (base m) (Z.to_nat j) else 0).
  { intros j. destruct (Z.leb_spec 0 j), (Z.ltb_spec j 6); cbn [andb].
    - rewrite <- (Z2Nat.id j) at 1 by lia. apply vals_arr_select. lia.
    - unfold Resilient.vals_arr, Select, Store, K. cbn.
      repeat match goal with
             | |- context [?x =? ?y] => destruct (Z.eqb_spec x y); [lia|]
             end.
      reflexivity.
    - unfold Resilient.vals_arr, Select, Store, K. cbn.
      repeat match goal with
             | |- context [?x =? ?y] => destruct (Z.eqb_spec x y); [lia|]
             end.
      reflexivity.
    - lia. }
  assert (O : forall j,
    Select (Resilient.ops_arr m) j =
    if (0 <=? j) && (j <? 5) then ops (base m) (Z.to_nat j) else 0).
  { intros j. destruct (Z.leb_spec 0 j), (Z.ltb_spec j 5); cbn [andb].
    - rewrite <- (Z2Nat.id j) at 1 by lia. apply ops_arr_select. lia.
    - unfold Resilient.ops_arr, Select, Store, K. cbn.
      repeat match goal with
             | |- context [?x =? ?y] => destruct (Z.eqb_spec x y); [lia|]
             end.
      reflexivity.
    - unfold Resilient.ops_arr, Select, Store, K. cbn.
      repeat match goal with
             | |- context [?x =? ?y] => destruct (Z.eqb_spec x y); [lia|]
             end.
      reflexivity.
    - lia. }
  split; [apply V|]. split; [apply O|]. intros R.
  unfold Resilient.pre_last_val, Resilient.last_op_code. rewrite V, O.
  destruct (Z.leb_spec 0 (last_op m - 1)); [|lia].
  destruct (Z.ltb_spec (last_op m - 1) 6); [|lia].
  destruct (Z.ltb_spec (last_op m - 1) 5); [|lia].
  split; reflexivity.
Qed.

Lemma X2_vals_arr_ops_arr_lookup_witness :
  Resilient.pre_last_val thirteen = 13 /\ Resilient.last_op_code thirteen = 3.
Proof.
  apply (X2_vals_arr_ops_arr_lookup thirteen 0). cbn. lia.
Defined.

(** ** Executed steps and partial results *)

Lemma steps_as_count (numbers : list Z) (m : Model) :
  feasible numbers m ->
  forall i, (i < 6)%nat -> steps m i = (Z.of_nat i <? used_count m).
Proof.
  intros F i Hi. rewrite used_count_unfold.
  pose proof (f_init _ _ F) as P0.
  pose proof (f_prefix _ _ F 1 ltac:(lia)) as P1.
  pose proof (f_prefix _ _ F 2 ltac:(lia)) as P2.
  pose proof (f_prefix _ _ F 3 ltac:(lia)) as P3.
  pose proof (f_prefix _ _ F 4 ltac:(lia)) as P4.
  pose proof (f_prefix _ _ F 5 ltac:(lia)) as P5.
  cbn [Nat.sub] in P1, P2, P3, P4, P5.
  destruct (steps m 0%nat) eqn:E0; [|discriminate].
  destruct (steps m 1%nat) eqn:E1, (steps m 2%nat) eqn:E2,
    (steps m 3%nat) eqn:E3, (steps m 4%nat) eqn:E4,
    (steps m 5%nat) eqn:E5;
    try (exfalso; intuition congruence);
    do 6 (destruct i as [|i]; [assumption|]); lia.
Qed.

(** X3.  In every assignment that satisfies the constraints of
    [CountingStrategy] the executed steps are exactly the first
    [used_count] ones: between 1 and 6 of them, step i being executed if
    and only if i is below [used_count]. *)
Theorem X3_executed_steps_are_the_first_used_count
        (numbers : list Z) (m : Model) :
  Plain.constraints numbers m = true ->
  1 <= used_count m <= 6 /\
  forall i, (i < 6)%nat ->
            (steps m i = true <-> Z.of_nat i < used_count m).
Proof.
  intros C. apply constraints_feasible in C. split.
  - pose proof (used_count_bounds m). pose proof (used_count_ge_1 _ _ C).
    lia.
  - intros i Hi. rewrite (steps_as_count _ _ C i Hi). apply Z.ltb_lt.
Qed.

Lemma X3_executed_steps_are_the_first_used_count_witness :
  steps reach_462 3%nat = true <-> 3 < used_count reach_462.
Proof.
  apply (X3_executed_steps_are_the_first_used_count example_pool reach_462
           eq_refl).
  lia.
Defined.

Lemma vals_after_count (numbers : list Z) (m : Model) :
  feasible numbers m ->
  forall j, (j < 6)%nat -> used_count m - 1 <= Z.of_nat j ->
            vals m j = vals m (Z.to_nat (used_count m - 1)).
Proof.
  intros F j Hj Hu. pose proof (used_count_ge_1 _ _ F).
  apply (vals_frozen numbers m (Z.to_nat (used_count m - 1)) F); [|lia].
  intros k Hk. rewrite (steps_as_count _ _ F k) by lia.
  apply Z.ltb_ge. lia.
Qed.

(** X4.  In every assignment that satisfies the constraints of
    [CountingStrategy] the partial results stop changing after the last
    executed step: every later one, the final value [vals[5]] included,
    equals the result of step [used_count - 1]. *)
Theorem X4_final_value_is_last_executed_result
        (numbers : list Z) (m : Model) (j : nat) :
  Plain.constraints numbers m = true ->
  (j <= 5)%nat -> used_count m - 1 <= Z.of_nat j ->
  vals m j = vals m (Z.to_nat (used_count m - 1)) /\
  vals m j = vals m 5%nat.
Proof.
  intros C Hj Hu. apply constraints_feasible in C.
  pose proof (used_count_bounds m).
  rewrite (vals_after_count _ _ C j) by lia.
  rewrite (vals_after_count _ _ C 5) by lia. auto.
Qed.

Lemma X4_final_value_is_last_executed_result_witness :
  vals reach_462 4%nat = vals reach_462 3%nat /\
  vals reach_462 4%nat = vals reach_462 5%nat.
Proof.
  apply (X4_final_value_is_last_executed_result example_pool reach_462 4
           eq_refl); [lia | cbn; lia].
Defined.

(** X5.  The partial results are not free: two assignments that satisfy
    the constraints of [CountingStrategy] for the same pool, execute the
    same steps and agree on the operand index and the operator of every
    executed step have the same partial results, hence the same final
    value and the same distance to any target. *)
Theorem X5_choices_determine_values
        (numbers : list Z) (m1 m2 : Model) :
  Plain.constraints numbers m1 = true ->
  Plain.constraints numbers m2 = true ->
  (forall i, (i < 6)%nat -> steps m1 i = steps m2 i) ->
  (forall i, (i < 6)%nat -> steps m1 i = true -> ids m1 i = ids m2 i) ->
  (forall i, (1 <= i < 6)%nat -> steps m1 i = true ->
             ops m1 (i - 1)%nat = ops m2 (i - 1)%nat) ->
  (forall k, (k < 6)%nat -> vals m1 k = vals m2 k) /\
  (forall target, dist_to_target target m1 = dist_to_target target m2).
Proof.
  intros C1 C2 Hs Hi Ho.
  apply constraints_feasible in C1, C2.
  assert (V : forall k, (k < 6)%nat -> vals m1 k = vals m2 k).
  { induction k as [|k IH]; intros Hk.
    - rewrite (f_first _ _ C1), (f_first _ _ C2), Hi; trivial.
      apply (f_init _ _ C1).
    - pose proof (f_trans _ _ C1 (S k) ltac:(lia)) as T1.
      pose proof (f_trans _ _ C2 (S k) ltac:(lia)) as T2.
      destruct (steps m1 (S k)) eqn:E1.
      + assert (E2 : steps m2 (S k) = true) by (now rewrite <- Hs).
        apply (transition_executed _ _ _ E1) in T1 as (T1 & _).
        apply (transition_executed _ _ _ E2) in T2 as (T2 & _).
        rewrite T1, T2, (Hi (S k)), (Ho (S k)) by (trivial; lia).
        replace (S k - 1)%nat with k by lia. rewrite IH by lia.
        reflexivity.
      + assert (E2 : steps m2 (S k) = false) by (now rewrite <- Hs).
        apply (transition_skipped _ _ _ E1) in T1.
        apply (transition_skipped _ _ _ E2) in T2.
        rewrite T1, T2. replace (S k - 1)%nat with k by lia.
        apply IH. lia. }
  split; [exact V|]. intros target. unfold dist_to_target.
  now rewrite V by lia.
Qed.

Lemma X5_choices_determine_values_witness :
  vals (only_step_0 example_pool 5) 5%nat =
  vals (mkModel (fun k => 5) (fun k => Nat.eqb k 0) (fun _ => 3)
                (fun _ => 50)) 5%nat.
Proof.
  apply (X5_choices_determine_values example_pool
           (only_step_0 example_pool 5)
           (mkModel (fun k => 5) (fun k => Nat.eqb k 0) (fun _ => 3)
                    (fun _ => 50)) eq_refl eq_refl).
  - reflexivity.
  - intros i _ E. cbn in *. now rewrite E.
  - intros i Hi E. cbn in E. destruct i; [lia | discriminate].
  - lia.
Defined.

(** ** The unknowns the resilient solver adds *)

(** X6.  In every assignment that satisfies the constraints of
    [CountingStrategyResilient], [last_op] is the number of executed
    steps minus one (step 0 uses a number but is no operation): the
    disjunction over the turns leaves a single possible value. *)
Theorem X6_last_op_counts_the_operations
        (numbers : list Z) (target : Z) (m : ModelR) :
  Resilient.constraints numbers target m = true ->
  last_op m = used_count (base m) - 1 /\
  2 <= used_count (base m) <= 6 /\
  forall k, (1 <= k <= 5)%nat ->
            (steps (base m) k = true <-> Z.of_nat k <= last_op m).
Proof.
  intros C. apply constraintsR_feasible in C.
  pose proof (used_count_last_op _ _ _ C) as U.
  pose proof (used_count_ge_2 _ _ _ C).
  pose proof (used_count_bounds (base m)).
  split; [lia|]. split; [lia|]. intros k Hk.
  rewrite (steps_as_count _ _ (r_base _ _ _ C) k) by lia.
  rewrite Z.ltb_lt. lia.
Qed.

Lemma X6_last_op_counts_the_operations_witness :
  last_op one_plus_3 = used_count (base one_plus_3) - 1.
Proof.
  apply (X6_last_op_counts_the_operations example_pool 0 one_plus_3 eq_refl).
Defined.

(** X7.  Two formulas of the resilient solver add nothing: the bound
    [1 <= last_op <= 5] follows from the disjunction over the turns, and
    the forced step 0 follows from the forced step 1 and the prefix rule.
    This holds for every valuation, feasible or not. *)
Theorem X7_redundant_formulas (m : ModelR) :
  (Or (Resilient.cases m) = true ->
   And [last_op m >=? 1; last_op m <=? 5] = true) /\
  (steps_prefix (base m) = true ->
   Bool.eqb (steps (base m) 1%nat) true = true ->
   initial_step (base m) = true).
Proof.
  split.
  - intros H. apply cases_spec in H as (k & Hk & E & _).
    cbn. rewrite !andb_true_iff. lia.
  - intros P S1. apply initial_step_spec.
    rewrite steps_prefix_spec in P. apply (P 1%nat); [lia|].
    now destruct (steps (base m) 1%nat).
Qed.

Lemma X7_redundant_formulas_witness :
  And [last_op thirteen >=? 1; last_op thirteen <=? 5] = true /\
  initial_step (base thirteen) = true.
Proof.
  destruct (X7_redundant_formulas thirteen) as (A & B).
  split; [apply A | apply B]; reflexivity.
Defined.

Lemma used_count_ext (m1 m2 : Model) :
  (forall i, (i < 6)%nat -> steps m1 i = steps m2 i) ->
  used_count m1 = used_count m2.
Proof.
  intros H. rewrite !used_count_unfold. now rewrite !H by lia.
Qed.

(** X8.  The attack unknowns are not free either: two assignments that
    satisfy the constraints of [CountingStrategyResilient] for the same
    pool and target and agree on the executed steps, the partial results
    and the operator codes have the same [last_op], the same legal
    attacks, the same [att_dist] for every attack of 1..10 and the same
    [worst_dist]. *)
Theorem X8_base_determines_worst_dist
        (numbers : list Z) (target : Z) (m1 m2 : ModelR) :
  Resilient.constraints numbers target m1 = true ->
  Resilient.constraints numbers target m2 = true ->
  (forall i, (i < 6)%nat -> steps (base m1) i = steps (base m2) i) ->
  (forall i, (i < 6)%nat -> vals (base m1) i = vals (base m2) i) ->
  (forall i, (i < 5)%nat -> ops (base m1) i = ops (base m2) i) ->
  last_op m1 = last_op m2 /\
  (forall a, 1 <= a <= 10 ->
             Resilient.legal_attack m1 a = Resilient.legal_attack m2 a /\
             att_dist m1 a = att_dist m2 a) /\
  worst_dist m1 = worst_dist m2.
Proof.
  intros C1 C2 Hs Hv Ho.
  apply constraintsR_feasible in C1, C2.
  assert (L : last_op m1 = last_op m2).
  { pose proof (used_count_last_op _ _ _ C1).
    pose proof (used_count_last_op _ _ _ C2).
    pose proof (used_count_ext _ _ Hs). lia. }
  destruct (last_step _ _ _ C1) as (HL1 & _ & _ & P1 & O1 & _).
  destruct (last_step _ _ _ C2) as (_ & _ & _ & P2 & O2 & _).
  rewrite <- L in P2, O2. rewrite <- Hv in P2 by lia.
  rewrite <- Ho in O2 by lia. rewrite <- P1 in P2. rewrite <- O1 in O2.
  assert (Legal : forall a, Resilient.legal_attack m1 a =
                            Resilient.legal_attack m2 a).
  { intros a. unfold Resilient.legal_attack. now rewrite P2, O2. }
  assert (D : forall a, 1 <= a <= 10 -> att_dist m1 a = att_dist m2 a).
  { intros a Ha. destruct (Resilient.legal_attack m1 a) eqn:E.
    - destruct (legal_attack_result _ _ _ a C1 Ha E) as (_ & ->).
      rewrite Legal in E.
      destruct (legal_attack_result _ _ _ a C2 Ha E) as (_ & ->).
      now rewrite P2, O2.
    - rewrite (illegal_attack_dist _ _ _ a C1 Ha E). rewrite Legal in E.
      now rewrite (illegal_attack_dist _ _ _ a C2 Ha E). }
  split; [exact L|]. split; [intros a Ha; split; auto|].
  destruct (r_attained _ _ _ C1) as (a1 & Ha1 & _ & E1).
  destruct (r_attained _ _ _ C2) as (a2 & Ha2 & _ & E2).
  pose proof (r_upper _ _ _ C1 a2 Ha2).
  pose proof (r_upper _ _ _ C2 a1 Ha1).
  rewrite (D a1 Ha1) in E1. rewrite (D a2 Ha2) in H. lia.
Qed.

Lemma X8_base_determines_worst_dist_witness :
  worst_dist (add_first_two example_pool 0) = worst_dist one_plus_3.
Proof.
  apply (X8_base_determines_worst_dist example_pool 0
           (add_first_two example_pool 0) one_plus_3 eq_refl eq_refl).
  - reflexivity.
  - intros i _. cbn. now destruct (Nat.eqb i 0).
  - reflexivity.
Defined.

(** ** From the plain encoding to the resilient one *)

Lemma last_reads (m : ModelR) :
  1 <= last_op m <= 5 ->
  Resilient.pre_last_val m = vals (base m) (Z.to_nat (last_op m - 1)) /\
  Resilient.last_op_code m = ops (base m) (Z.to_nat (last_op m - 1)).
Proof.
  intros R. unfold Resilient.pre_last_val, Resilient.last_op_code.
  rewrite <- (Z2Nat.id (last_op m - 1)) at 1 3 by lia.
  rewrite vals_arr_select, ops_arr_select by lia. auto.
Qed.

Lemma complete_feasible (numbers : list Z) (target : Z) (m : Model) :
  feasible numbers m -> steps m 1%nat = true ->
  feasibleR numbers target (complete target m).
Proof.
  intros F S1.
  assert (U : 2 <= used_count m <= 6).
  { pose proof (used_count_bounds m).
    rewrite (steps_as_count _ _ F 1) in S1 by lia.
    apply Z.ltb_lt in S1. lia. }
  set (mr := complete target m).
  assert (EL : last_op mr = used_count m - 1) by reflexivity.
  destruct (last_reads mr ltac:(lia)) as (Epre & Ecode).
  change (base mr) with m in Epre, Ecode. rewrite EL in Epre, Ecode.
  set (pre := vals m (Z.to_nat (used_count m - 1 - 1))) in *.
  set (code := ops m (Z.to_nat (used_count m - 1 - 1))) in *.
  assert (Rcode : 0 <= code < 4) by (apply (f_ops _ _ F); lia).
  assert (Legal : forall a, Resilient.legal_attack mr a =
                            negb (code =? 3) || (mod_ pre a =? 0)).
  { intros a. unfold Resilient.legal_attack, Or. cbn [existsb].
    now rewrite Epre, Ecode, orb_false_r. }
  set (dist := fun a => if negb (code =? 3) || (mod_ pre a =? 0)
                        then Abs (target - apply_result code pre a)
                        else -1).
  assert (Edist : forall a, att_dist mr a = dist a) by reflexivity.
  assert (Eres : forall a, att_res mr a = apply_result code pre a)
    by reflexivity.
  assert (Eworst : worst_dist mr =
                   fold_left Z.max (map dist (tl Resilient.attacks)) (dist 1))
    by reflexivity.
  pose proof (fold_left_max_spec (map dist (tl Resilient.attacks)) (dist 1))
    as (Hin & Hub).
  rewrite <- Eworst in Hin, Hub.
  change (dist 1 :: map dist (tl Resilient.attacks))
    with (map dist Resilient.attacks) in Hin, Hub.
  constructor.
  - exact F.
  - exists (Z.to_nat (used_count m - 1)). change (base mr) with m.
    rewrite EL. split; [lia|]. split; [lia|]. split.
    + rewrite (steps_as_count _ _ F) by lia. apply Z.ltb_lt. lia.
    + intros Hk. rewrite (steps_as_count _ _ F) by lia.
      apply Z.ltb_ge. lia.
  - exact S1.
  - rewrite EL. lia.
  - intros a Ha. rewrite Legal, Edist, Eres, Epre, Ecode. split.
    + intros Hl. apply apply_executed. split; [reflexivity|].
      intros N0 N1 N2. assert (E3 : code = 3) by lia.
      rewrite E3 in Hl. cbn in Hl. apply Z.eqb_eq in Hl.
      split; [lia | exact Hl].
    + reflexivity.
  - intros a Ha. rewrite Edist. apply Hub, in_map, in_attacks, Ha.
  - apply in_map_iff in Hin as (a & E & Ha). apply in_attacks in Ha.
    exists a. split; [exact Ha|]. rewrite Edist, Legal.
    split; [|now symmetry].
    destruct (negb (code =? 3) || (mod_ pre a =? 0)) eqn:El; trivial.
    exfalso.
    assert (D1 : 0 <= dist 1).
    { unfold dist. rewrite mod_1, Z.eqb_refl, orb_true_r.
      apply Abs_nonneg. }
    specialize (Hub (dist 1) (in_map dist _ 1 ltac:(apply in_attacks; lia))).
    unfold dist at 1 in E. rewrite El in E. lia.
Qed.

(** X9.  The attack formulas never rule out a sequence of operations:
    every assignment that satisfies the constraints of [CountingStrategy]
    and executes step 1 can be completed, without touching its choices or
    its partial results, into one that satisfies the constraints of
    [CountingStrategyResilient]; conversely the shared unknowns of a
    resilient assignment always satisfy the plain constraints with step 1
    executed. *)
Theorem X9_resilient_assignments_are_plain_ones_with_step_1
        (numbers : list Z) (target : Z) (m : Model) :
  (Plain.constraints numbers m = true /\ steps m 1%nat = true) <->
  (exists mr, base mr = m /\
              Resilient.constraints numbers target mr = true).
Proof.
  split.
  - intros (C & S1). exists (complete target m). split; [reflexivity|].
    apply constraintsR_feasible, complete_feasible; trivial.
    now apply constraints_feasible.
  - intros (mr & <- & C). split; [now apply constraintsR_base in C|].
    apply constraintsR_feasible in C. apply (r_step1 _ _ _ C).
Qed.

Lemma X9_resilient_assignments_are_plain_ones_with_step_1_witness :
  exists mr, base mr = reach_462 /\
             Resilient.constraints example_pool 462 mr = true.
Proof.
  apply (X9_resilient_assignments_are_plain_ones_with_step_1
           example_pool 462 reach_462).
  split; reflexivity.
Defined.

(** X10.  The plain solver is never beaten on the raw distance: the
    distance of the model [CountingStrategy] reads back is at most the
    unattacked distance [|target - vals[5]|] of every assignment that
    satisfies the constraints of [CountingStrategyResilient], the answer
    of the resilient solver included. *)
Theorem X10_plain_distance_at_most_resilient_distance
        (numbers : list Z) (target : Z) (m : Model) (mr : ModelR) :
  Plain.returns numbers target m ->
  Resilient.constraints numbers target mr = true ->
  dist_to_target target m <= dist_to_target target (base mr).
Proof.
  intros R C. apply returns_spec in R as (_ & O).
  apply constraintsR_base in C. specialize (O (base mr) C).
  cbn zeta in O. lia.
Qed.

Lemma X10_plain_distance_at_most_resilient_distance_witness :
  dist_to_target 50 pick_50 <=
  dist_to_target 50 (base (add_first_two example_pool 50)).
Proof.
  apply (X10_plain_distance_at_most_resilient_distance example_pool 50
           pick_50 (add_first_two example_pool 50) pick_50_returns eq_refl).
Defined.

(** ** Which attack is the worst *)

Lemma attack_cases (a : Z) :
  1 <= a <= 10 ->
  a = 1 \/ a = 2 \/ a = 3 \/ a = 4 \/ a = 5 \/
  a = 6 \/ a = 7 \/ a = 8 \/ a = 9 \/ a = 10.
Proof. lia. Qed.

(** X11.  When the last executed operation is an addition, a subtraction
    or a multiplication, the adversary's best move is an extreme one: in
    every assignment that satisfies the resilient constraints
    [worst_dist] is the larger of the distances obtained with the
    attacks 1 and 10.  For an addition or a subtraction it is therefore
    at least 5: such a last step is never resilient. *)
Theorem X11_worst_attack_is_1_or_10
        (numbers : list Z) (target : Z) (m : ModelR) :
  Resilient.constraints numbers target m = true ->
  Resilient.last_op_code m <> 3 ->
  let code := Resilient.last_op_code m in
  let pre := Resilient.pre_last_val m in
  worst_dist m = Z.max (Z.abs (target - apply_result code pre 1))
                       (Z.abs (target - apply_result code pre 10)) /\
  (code = 0 \/ code = 1 -> 5 <= worst_dist m).
Proof.
  intros C N code pre. apply constraintsR_feasible in C.
  pose proof (last_op_code_range _ _ _ C) as R. fold code in R, N.
  assert (D : forall a, 1 <= a <= 10 ->
                        att_dist m a =
                        Z.abs (target - apply_result code pre a)).
  { intros a Ha.
    now destruct (legal_attack_result _ _ _ a C Ha
                    (legal_attack_no_division m a N)). }
  pose proof (r_upper _ _ _ C 1 ltac:(lia)) as U1.
  pose proof (r_upper _ _ _ C 10 ltac:(lia)) as U10.
  rewrite D in U1, U10 by lia.
  destruct (r_attained _ _ _ C) as (a & Ha & _ & E).
  rewrite (D a Ha) in E.
  assert (B : Z.abs (target - apply_result code pre a) <=
              Z.max (Z.abs (target - apply_result code pre 1))
                    (Z.abs (target - apply_result code pre 10))).
  { unfold apply_result.
    destruct (Z.eqb_spec code 0); [lia|].
    destruct (Z.eqb_spec code 1); [lia|].
    destruct (Z.eqb_spec code 2); [|lia].
    destruct (attack_cases a Ha)
      as [->|[->|[->|[->|[->|[->|[->|[->|[->| ->]]]]]]]]]; lia. }
  split; [lia|].
  intros Hc. unfold apply_result in U1, U10.
  destruct Hc as [Hc|Hc]; rewrite Hc in U1, U10; cbn in U1, U10; lia.
Qed.

Lemma X11_worst_attack_is_1_or_10_witness :
  worst_dist one_plus_3 = Z.max (Z.abs (0 - (1 + 1))) (Z.abs (0 - (1 + 10))).
Proof.
  apply (X11_worst_attack_is_1_or_10 example_pool 0 one_plus_3 eq_refl).
  discriminate.
Defined.

Lemma apply_result_add (v n : Z) : apply_result 0 v n = v + n.
Proof. reflexivity. Qed.

Lemma apply_result_sub (v n : Z) : apply_result 1 v n = v - n.
Proof. reflexivity. Qed.

Lemma apply_result_mul (v n : Z) : apply_result 2 v n = v * n.
Proof. reflexivity. Qed.

Lemma apply_result_div (v n : Z) : apply_result 3 v n = div v n.
Proof. reflexivity. Qed.

(** X12.  When an answer is perfectly resilient.  In an assignment that
    satisfies the resilient constraints [worst_dist] is 0 exactly when
    the value before the last step is already the target and the last
    step is either a multiplication with target 0 or a division whose
    only legal attack is 1 (no number of 2..10 divides the target) or
    whose target is 0. *)
Theorem X12_worst_dist_zero (numbers : list Z) (target : Z) (m : ModelR) :
  Resilient.constraints numbers target m = true ->
  let code := Resilient.last_op_code m in
  let pre := Resilient.pre_last_val m in
  worst_dist m = 0 <->
  pre = target /\
  ((code = 2 /\ target = 0) \/
   (code = 3 /\
    (target = 0 \/ forall a, 2 <= a <= 10 -> target mod a <> 0))).
Proof.
  intros C code pre. apply constraintsR_feasible in C.
  pose proof (last_op_code_range _ _ _ C) as R. fold code in R.
  assert (D : forall a, 1 <= a <= 10 ->
                        Resilient.legal_attack m a = true ->
                        att_dist m a =
                        Z.abs (target - apply_result code pre a)).
  { intros a Ha Hl. now destruct (legal_attack_result _ _ _ a C Ha Hl). }
  split.
  - intros W.
    assert (Hit : forall a, 1 <= a <= 10 ->
                            Resilient.legal_attack m a = true ->
                            apply_result code pre a = target).
    { intros a Ha Hl. pose proof (r_upper _ _ _ C a Ha) as U.
      rewrite (D a Ha Hl) in U. lia. }
    pose proof (Hit 1 ltac:(lia) (legal_attack_1 m)) as H1.
    assert (Cases : code = 0 \/ code = 1 \/ code = 2 \/ code = 3) by lia.
    destruct Cases as [E|[E|[E|E]]].
    + pose proof (Hit 2 ltac:(lia)
                    (legal_attack_no_division m 2 ltac:(fold code; lia)))
        as H2.
      rewrite E, apply_result_add in H1, H2. lia.
    + pose proof (Hit 2 ltac:(lia)
                    (legal_attack_no_division m 2 ltac:(fold code; lia)))
        as H2.
      rewrite E, apply_result_sub in H1, H2. lia.
    + pose proof (Hit 2 ltac:(lia)
                    (legal_attack_no_division m 2 ltac:(fold code; lia)))
        as H2.
      rewrite E, apply_result_mul in H1, H2.
      split; [lia|]. left. lia.
    + rewrite E, apply_result_div in H1.
      rewrite div_pos, Z.div_1_r in H1 by lia.
      split; [exact H1|]. right. split; [exact E|].
      destruct (Z.eq_dec target 0) as [|Nz]; [now left | right].
      intros a Ha Hm.
      assert (Hl : Resilient.legal_attack m a = true).
      { apply legal_attack_spec. right. fold pre.
        rewrite mod_pos by lia. now rewrite H1. }
      pose proof (Hit a ltac:(lia) Hl) as Ha'.
      rewrite E, apply_result_div, div_pos in Ha' by lia.
      pose proof (Z.div_mod pre a ltac:(lia)) as DM.
      rewrite Ha', H1, Hm in DM. nia.
  - intros (Ep & Hc).
    destruct (r_attained _ _ _ C) as (a & Ha & Hl & ->).
    rewrite (D a Ha Hl).
    destruct Hc as [(E & T0)|(E & Hd)]; rewrite E.
    + rewrite apply_result_mul, Ep, T0. lia.
    + apply legal_attack_spec in Hl as [N|Hm]; [fold code in N; lia|].
      fold pre in Hm. rewrite mod_pos in Hm by lia.
      rewrite apply_result_div, div_pos by lia. rewrite Ep in *.
      destruct Hd as [T0|Hd].
      * rewrite T0. rewrite Z.div_0_l by lia. lia.
      * destruct (Z.eq_dec a 1) as [->|Na].
        -- rewrite Z.div_1_r. lia.
        -- exfalso. apply (Hd a); [lia | exact Hm].
Qed.

Lemma X12_worst_dist_zero_witness :
  Resilient.pre_last_val thirteen = 13 /\
  ((Resilient.last_op_code thirteen = 2 /\ 13 = 0) \/
   (Resilient.last_op_code thirteen = 3 /\
    (13 = 0 \/ forall a, 2 <= a <= 10 -> 13 mod a <> 0))).
Proof.
  apply (X12_worst_dist_zero pool_13 13 thirteen eq_refl). reflexivity.
Defined.

(** ** Stopping one step earlier *)

Lemma truncate_feasible (numbers : list Z) (m : Model) (n : nat) :
  feasible numbers m -> (1 <= n)%nat -> feasible numbers (truncate m n).
Proof.
  intros F Hn.
  constructor; unfold transition, truncate; cbn [ids steps ops vals].
  - apply (f_first _ _ F).
  - apply (f_ids _ _ F).
  - apply (f_ops _ _ F).
  - intros i Hi. rewrite !andb_true_iff, !Nat.ltb_lt. intros (S & L).
    split; [now apply (f_prefix _ _ F) | lia].
  - intros i j Hij. rewrite !andb_true_iff. intros (Si & _) (Sj & _).
    now apply (f_distinct _ _ F).
  - intros k Hk. pose proof (f_trans _ _ F k Hk) as T.
    unfold transition in T.
    destruct (Nat.ltb_spec k n).
    + rewrite andb_true_r.
      replace (Nat.min k (n - 1)) with k by lia.
      replace (Nat.min (k - 1) (n - 1)) with (k - 1)%nat by lia.
      exact T.
    + rewrite andb_false_r.
      replace (Nat.min k (n - 1)) with (n - 1)%nat by lia.
      replace (Nat.min (k - 1) (n - 1)) with (n - 1)%nat by lia.
      apply Z.eqb_refl.
  - rewrite (f_init _ _ F). cbn [andb]. apply Nat.ltb_lt. lia.
Qed.

(** X13.  How far the two printed distances can be apart.  The distance
    of the model [CountingStrategy] reads back exceeds the [worst_dist]
    of no assignment satisfying the constraints of
    [CountingStrategyResilient] by more than 1, and does not exceed it at
    all when that assignment ends with a multiplication or a division:
    stopping before the last step is a plain solution, and the attacks
    with 1 land on it or next to it. *)
Theorem X13_plain_distance_at_most_worst_dist_plus_1
        (numbers : list Z) (target : Z) (m : Model) (mr : ModelR) :
  Plain.returns numbers target m ->
  Resilient.constraints numbers target mr = true ->
  dist_to_target target m <= worst_dist mr + 1 /\
  (Resilient.last_op_code mr = 2 \/ Resilient.last_op_code mr = 3 ->
   dist_to_target target m <= worst_dist mr).
Proof.
  intros R C. apply returns_spec in R as (_ & O).
  apply constraintsR_feasible in C.
  destruct (last_step _ _ _ C) as (HL & _ & _ & Epre & Ecode & _).
  set (L := Z.to_nat (last_op mr)) in *.
  pose proof (truncate_feasible numbers (base mr) L (r_base _ _ _ C)
                ltac:(lia)) as T.
  apply constraints_feasible in T. specialize (O _ T). cbn zeta in O.
  assert (Dt : dist_to_target target (truncate (base mr) L) =
               Z.abs (target - Resilient.pre_last_val mr)).
  { unfold dist_to_target, truncate. cbn [vals].
    replace (Nat.min 5 (L - 1)) with (L - 1)%nat by lia.
    now rewrite Abs_abs, Epre. }
  rewrite Dt in O.
  pose proof (legal_attack_result _ _ _ 1 C ltac:(lia) (legal_attack_1 mr))
    as (_ & D1).
  pose proof (r_upper _ _ _ C 1 ltac:(lia)) as U1. rewrite D1 in U1.
  pose proof (last_op_code_range _ _ _ C) as Rc.
  assert (B : Z.abs (target - Resilient.pre_last_val mr) <=
              Z.abs (target - apply_result (Resilient.last_op_code mr)
                                           (Resilient.pre_last_val mr) 1)
              + (if Resilient.last_op_code mr <? 2 then 1 else 0)).
  { assert (Cases : Resilient.last_op_code mr = 0 \/
                    Resilient.last_op_code mr = 1 \/
                    Resilient.last_op_code mr = 2 \/
                    Resilient.last_op_code mr = 3) by lia.
    destruct Cases as [E|[E|[E|E]]]; rewrite E.
    - rewrite (apply_result_add (Resilient.pre_last_val mr) 1).
      destruct (Z.ltb_spec 0 2); lia.
    - rewrite (apply_result_sub (Resilient.pre_last_val mr) 1).
      destruct (Z.ltb_spec 1 2); lia.
    - rewrite (apply_result_mul (Resilient.pre_last_val mr) 1), Z.mul_1_r.
      destruct (Z.ltb_spec 2 2); lia.
    - rewrite (apply_result_div (Resilient.pre_last_val mr) 1).
      rewrite div_pos, Z.div_1_r by lia.
      destruct (Z.ltb_spec 3 2); lia. }
  split.
  - destruct (Resilient.last_op_code mr <? 2); lia.
  - intros [E|E];
      destruct (Z.ltb_spec (Resilient.last_op_code mr) 2); lia.
Qed.

Lemma X13_plain_distance_at_most_worst_dist_plus_1_witness :
  dist_to_target 50 pick_50 <= worst_dist (add_first_two example_pool 50) + 1.
Proof.
  destruct (X13_plain_distance_at_most_worst_dist_plus_1 example_pool 50
              pick_50 (add_first_two example_pool 50) pick_50_returns
              eq_refl) as (H & _).
  exact H.
Defined.

(** ** The printed report *)

Lemma exact_division (x n : Z) :
  n <> 0 -> mod_ x n = 0 -> x mod n = 0 /\ x / n = div x n.
Proof.
  intros Hn Hm. pose proof (div_exact x n Hn Hm) as E.
  rewrite <- E at 1 2. rewrite Z.mul_comm.
  split; [apply Z.mod_mul | apply Z.div_mul]; exact Hn.
Qed.

(** The symbol printed for a step names the operation the constraints
    applied to it. *)
Lemma eval_printed_symbol (numbers : list Z) (m : Model) (j : nat) :
  feasible numbers m -> (1 <= j < 6)%nat -> steps m j = true ->
  exists operator,
    OPERATION_IDS (ops m (j - 1)%nat) = Some operator /\
    eval_symbol operator (vals m (j - 1)%nat)
                (Select (arr numbers) (ids m j)) = Some (vals m j).
Proof.
  intros F Hj E. pose proof (f_trans _ _ F j Hj) as T.
  apply (transition_executed _ _ _ E) in T as (V & D). cbn zeta in D.
  pose proof (f_ops _ _ F (j - 1)%nat ltac:(lia)) as R.
  unfold OPERATION_IDS. rewrite V. unfold apply_result.
  destruct (Z.eqb_spec (ops m (j - 1)%nat) 0); [now eexists|].
  destruct (Z.eqb_spec (ops m (j - 1)%nat) 1); [now eexists|].
  destruct (Z.eqb_spec (ops m (j - 1)%nat) 2); [now eexists|].
  destruct (Z.eqb_spec (ops m (j - 1)%nat) 3); [|lia].
  destruct D as (Hz & Hm); trivial.
  destruct (exact_division _ _ Hz Hm) as (M0 & Q).
  eexists. split; [reflexivity|]. unfold eval_symbol. cbn [String.eqb].
  cbn. apply Z.eqb_neq in Hz. rewrite Hz, M0, Q. reflexivity.
Qed.

Lemma print_steps_replay (numbers : list Z) (m : Model) :
  feasible numbers m ->
  forall n a, (1 <= a)%nat -> (a + n = 6)%nat ->
    exists ls,
      print_steps numbers m (seq a n) = Some ls /\
      replay (vals m (a - 1)%nat) a ls = Some (vals m 5%nat) /\
      Z.of_nat (length ls) = Z.max 0 (used_count m - Z.of_nat a).
Proof.
  intros F. pose proof (used_count_bounds m) as B.
  pose proof (used_count_ge_1 _ _ F) as B1.
  induction n as [|n IH]; intros a Ha Han.
  - exists []. cbn [seq print_steps replay length].
    replace (a - 1)%nat with 5%nat by lia. repeat split. lia.
  - cbn [seq print_steps].
    pose proof (steps_as_count _ _ F a ltac:(lia)) as Sa.
    destruct (steps m a) eqn:E.
    + symmetry in Sa. apply Z.ltb_lt in Sa.
      destruct (eval_printed_symbol numbers m a F ltac:(lia) E)
        as (operator & -> & Ev).
      destruct (IH (S a) ltac:(lia) ltac:(lia)) as (ls & -> & Rp & Len).
      replace (S a - 1)%nat with a in Rp by lia.
      eexists. split; [reflexivity|]. cbn [replay length].
      rewrite Nat.eqb_refl, Ev, Z.eqb_refl. split; [exact Rp | lia].
    + symmetry in Sa. apply Z.ltb_ge in Sa.
      exists []. cbn [replay length]. repeat split; [|lia]. f_equal.
      rewrite (vals_after_count _ _ F (a - 1)) by lia.
      now rewrite (vals_after_count _ _ F 5) by lia.
Qed.

(** X14.  What [CountingStrategy] prints for a model of its constraints
    is a trace that can be redone by hand.  The dictionary lookup never
    fails; there is one step line per executed operation, numbered from 1
    without a gap; each line's result is its operator applied to the
    previous result and to the printed number, every division being exact
    and by a nonzero number; the final number is the result of the last
    line (the initial number when there is none), and the distance printed
    is its distance to the target. *)
Theorem X14_report_replays (numbers : list Z) (target : Z) (m : Model) :
  Plain.constraints numbers m = true ->
  exists ls,
    Plain.print_model numbers target m =
      Printed (Initial_number (vals m 0%nat)
               :: ls ++ [Final_number (vals m 5%nat);
                         Distance_from_goal (Z.abs (target - vals m 5%nat))])
    /\ Z.of_nat (length ls) = used_count m - 1
    /\ replay (vals m 0%nat) 1 ls = Some (vals m 5%nat).
Proof.
  intros C. apply constraints_feasible in C.
  destruct (print_steps_replay numbers m C 5 1 ltac:(lia) ltac:(lia))
    as (ls & P & Rp & Len).
  pose proof (used_count_ge_1 _ _ C).
  exists ls. split; [|split; [lia | exact Rp]].
  unfold Plain.print_model. change (range 1 6) with (seq 1 5).
  rewrite P, <- (f_first _ _ C). unfold dist_to_target.
  now rewrite Abs_abs.
Qed.

Lemma X14_report_replays_witness :
  Plain.print_model example_pool 462 reach_462 =
  Printed [Initial_number 50; Step 1 "-" 3 47; Step 2 "*" 10 470;
           Step 3 "-" 8 462; Final_number 462; Distance_from_goal 0] /\
  replay 50 1 [Step 1 "-" 3 47; Step 2 "*" 10 470; Step 3 "-" 8 462] =
  Some 462.
Proof.
  destruct (X14_report_replays example_pool 462 reach_462 eq_refl)
    as (ls & P & _ & Rp).
  injection P as P.
  change ([Step 1 "-" 3 47; Step 2 "*" 10 470; Step 3 "-" 8 462]
          ++ [Final_number 462; Distance_from_goal 0] =
          ls ++ [Final_number 462; Distance_from_goal 0]) in P.
  apply app_inv_tail in P. subst ls.
  split; [reflexivity | exact Rp].
Defined.

(** X15.  What [CountingStrategyResilient] prints for a model of its
    constraints: the same replayable trace, with exactly [last_op] step
    lines and so at least one, followed by the final number, its distance
    to the target and [worst_dist], which is never negative. *)
Theorem X15_resilient_report_replays
        (numbers : list Z) (target : Z) (m : ModelR) :
  Resilient.constraints numbers target m = true ->
  exists ls,
    Resilient.print_model numbers target m =
      Printed (Initial_number (vals (base m) 0%nat)
               :: ls ++ [Final_number (vals (base m) 5%nat);
                         Distance_from_goal
                           (Z.abs (target - vals (base m) 5%nat));
                         Distance_after_attack (worst_dist m)])
    /\ Z.of_nat (length ls) = last_op m
    /\ ls <> []
    /\ replay (vals (base m) 0%nat) 1 ls = Some (vals (base m) 5%nat)
    /\ 0 <= worst_dist m.
Proof.
  intros C. apply constraintsR_feasible in C.
  pose proof (r_base _ _ _ C) as F.
  destruct (print_steps_replay numbers (base m) F 5 1 ltac:(lia) ltac:(lia))
    as (ls & P & Rp & Len).
  pose proof (used_count_last_op _ _ _ C) as U.
  pose proof (r_last _ _ _ C) as R.
  exists ls. repeat split.
  - unfold Resilient.print_model. change (range 1 6) with (seq 1 5).
    rewrite P, <- (f_first _ _ F). unfold dist_to_target.
    now rewrite Abs_abs.
  - lia.
  - intros ->. cbn [length] in Len. lia.
  - exact Rp.
  - now apply worst_dist_nonneg with numbers target.
Qed.

Lemma X15_resilient_report_replays_witness :
  exists ls,
    Resilient.print_model pool_13 13 thirteen =
      Printed (Initial_number 13
               :: ls ++ [Final_number 1; Distance_from_goal 12;
                         Distance_after_attack 0])
    /\ Z.of_nat (length ls) = 1.
Proof.
  destruct (X15_resilient_report_replays pool_13 13 thirteen eq_refl)
    as (ls & P & Len & _).
  exists ls. split; [exact P | exact Len].
Defined.

(** ** Answers *)

(** X16.  When the target is one of the pool entries at positions 0..5,
    [CountingStrategy] can only answer with that entry alone: distance 0,
    one number used, no operation, and a report of three lines. *)
Theorem X16_target_in_pool (numbers : list Z) (target : Z) (m : Model) :
  In target (pool6 numbers) ->
  Plain.returns numbers target m ->
  dist_to_target target m = 0 /\
  used_count m = 1 /\
  Plain.print_model numbers target m =
    Printed [Initial_number target; Final_number target;
             Distance_from_goal 0].
Proof.
  intros Hin R. apply returns_spec in R as (C & O).
  apply constraints_feasible in C.
  unfold pool6 in Hin. apply in_map_iff in Hin as (i & E & Hi).
  apply in_range in Hi.
  set (m0 := only_step_0 numbers (Z.of_nat i)).
  assert (F0 : feasible numbers m0)
    by (apply only_step_0_feasible; lia).
  assert (D0 : dist_to_target target m0 = 0).
  { unfold dist_to_target, m0, only_step_0. cbn [vals].
    rewrite arr_select, Nat2Z.id, E, Abs_abs by lia. lia. }
  assert (U0 : used_count m0 = 1) by reflexivity.
  apply constraints_feasible in F0. specialize (O m0 F0). cbn zeta in O.
  rewrite D0, U0 in O. cbn [Z.eqb] in O.
  pose proof (dist_to_target_nonneg target m) as N.
  pose proof (used_count_ge_1 _ _ C) as G.
  assert (D : dist_to_target target m = 0) by lia.
  rewrite D in O. cbn [Z.eqb] in O.
  assert (U : used_count m = 1) by lia.
  split; [exact D|]. split; [exact U|].
  destruct (print_steps_replay numbers m C 5 1 ltac:(lia) ltac:(lia))
    as (ls & P & Rp & Len).
  rewrite U in Len. destruct ls as [|l ls]; [|cbn [length] in Len; lia].
  cbn in Rp. injection Rp as V05.
  assert (V5 : vals m 5%nat = target).
  { unfold dist_to_target in D. rewrite Abs_abs in D. lia. }
  unfold Plain.print_model. change (range 1 6) with (seq 1 5).
  rewrite P, <- (f_first _ _ C), V05, D, V5. reflexivity.
Qed.

Lemma X16_target_in_pool_witness :
  Plain.print_model example_pool 50 pick_50 =
  Printed [Initial_number 50; Final_number 50; Distance_from_goal 0].
Proof.
  apply (X16_target_in_pool example_pool 50 pick_50);
    [cbn; tauto | exact pick_50_returns].
Defined.

(** X17.  The objective values of an answer do not depend on which
    optimal model Z3 picks: two models [CountingStrategy] can read back
    for the same input have the same distance and, at distance 0, the
    same number of executed steps; two models
    [CountingStrategyResilient] can read back have the same [worst_dist]
    and, when it is 0, the same number of executed steps. *)
Theorem X17_objective_values_unique (numbers : list Z) (target : Z) :
  (forall m1 m2 : Model,
      Plain.returns numbers target m1 -> Plain.returns numbers target m2 ->
      dist_to_target target m1 = dist_to_target target m2 /\
      (dist_to_target target m1 = 0 -> used_count m1 = used_count m2)) /\
  (forall m1 m2 : ModelR,
      Resilient.returns numbers target m1 ->
      Resilient.returns numbers target m2 ->
      worst_dist m1 = worst_dist m2 /\
      (worst_dist m1 = 0 ->
       used_count (base m1) = used_count (base m2))).
Proof.
  split; intros m1 m2 R1 R2.
  - apply returns_spec in R1 as (C1 & O1), R2 as (C2 & O2).
    specialize (O1 m2 C2). specialize (O2 m1 C1). cbn zeta in O1, O2.
    assert (E : dist_to_target target m1 = dist_to_target target m2)
      by lia.
    split; [exact E|]. intros Z0. rewrite <- E, Z0 in O1, O2.
    cbn [Z.eqb] in O1, O2. lia.
  - apply returnsR_spec in R1 as (C1 & O1), R2 as (C2 & O2).
    specialize (O1 m2 C2). specialize (O2 m1 C1).
    assert (E : worst_dist m1 = worst_dist m2) by lia.
    split; [exact E|]. intros Z0. rewrite <- E, Z0 in O1, O2.
    cbn [Z.eqb] in O1, O2. lia.
Qed.

Lemma X17_objective_values_unique_witness :
  dist_to_target 1 all_six = dist_to_target 1 (only_step_0 zeros 0) /\
  worst_dist thirteen = worst_dist thirteen.
Proof.
  destruct (X17_objective_values_unique zeros 1) as (P & _).
  destruct (X17_objective_values_unique pool_13 13) as (_ & R).
  split.
  - apply (P all_six (only_step_0 zeros 0)); now apply zeros_returns.
  - apply (R thirteen thirteen); exact thirteen_returns.
Defined.

(** X18.  The unattacked distance that [CountingStrategyResilient]
    prints is no objective and is not determined by the input: with the
    pool 13, 13, 1, 13, 13, 13 and target 13 the optimiser may answer
    13 / 13, at distance 12, as well as 13 / 1, at distance 0, both with
    [worst_dist] 0 and one operation. *)
Theorem X18_resilient_distance_not_determined :
  Resilient.returns pool_13_1 13 thirteen /\
  Resilient.returns pool_13_1 13 thirteen_by_one /\
  dist_to_target 13 (base thirteen) = 12 /\
  dist_to_target 13 (base thirteen_by_one) = 0 /\
  exists out1 out2,
    Resilient.CountingStrategyResilient pool_13_1 13 out1 /\
    Resilient.CountingStrategyResilient pool_13_1 13 out2 /\
    out1 <> out2 /\ out1 <> Printed [] /\ out2 <> Printed [].
Proof.
  assert (R1 : Resilient.returns pool_13_1 13 thirteen)
    by (now apply returnsR_perfect).
  assert (R2 : Resilient.returns pool_13_1 13 thirteen_by_one)
    by (now apply returnsR_perfect).
  split; [exact R1|]. split; [exact R2|].
  split; [reflexivity|]. split; [reflexivity|].
  exists (Resilient.print_model pool_13_1 13 thirteen),
         (Resilient.print_model pool_13_1 13 thirteen_by_one).
  split; [exists (sat thirteen); now split|].
  split; [exists (sat thirteen_by_one); now split|].
  repeat split; discriminate.
Qed.

(** X19.  Neither solver can find its constraints unsatisfiable, whatever
    the pool (of any length) and the target: both constraint sets always
    have a model, and since both objective vectors are bounded below on
    the models, a lexicographic optimum always exists for [opt.check()]
    to answer.  The branch that prints nothing is left to [unknown]. *)
Theorem X19_never_unsat (numbers : list Z) (target : Z) :
  (exists m, Plain.returns numbers target m) /\
  (exists m, Resilient.returns numbers target m) /\
  ~ check Model (Plain.constraints numbers) (Plain.objectives target)
          unsat /\
  ~ check ModelR (Resilient.constraints numbers target)
          Resilient.objectives unsat.
Proof.
  split; [apply CountingStrategy_has_answer|].
  split; [apply CountingStrategyResilient_has_answer|].
  split; intros U.
  - specialize (U (only_step_0 numbers 0)).
    assert (C : Plain.constraints numbers (only_step_0 numbers 0) = true)
      by (apply constraints_feasible, only_step_0_feasible; lia).
    rewrite C in U. discriminate.
  - specialize (U (add_first_two numbers target)).
    assert (C : Resilient.constraints numbers target
                  (add_first_two numbers target) = true)
      by (apply constraintsR_feasible, add_first_two_feasible).
    rewrite C in U. discriminate.
Qed.

(** ** The [__main__] block *)

Lemma exact_answer (numbers : list Z) (target : Z) (m0 m : Model) :
  Plain.constraints numbers m0 = true -> dist_to_target target m0 = 0 ->
  Plain.returns numbers target m ->
  vals m 5%nat = target /\ used_count m <= used_count m0.
Proof.
  intros C0 D0 R. apply returns_spec in R as (C & O).
  specialize (O m0 C0). cbn zeta in O. rewrite D0 in O.
  pose proof (dist_to_target_nonneg target m) as N.
  assert (D : dist_to_target target m = 0) by lia.
  rewrite D in O. cbn [Z.eqb] in O. split; [|lia].
  unfold dist_to_target in D. rewrite Abs_abs in D. lia.
Qed.

(** X20.  The run of the program.  The first call, on the pool
    1, 3, 5, 8, 10, 50 with target 462, prints nothing or a report that
    ends at 462 with distance 0 after at most three operations, which
    replays; the second call prints nothing or a report with at least one
    operation.  The instance kept behind [cool_example] is solved exactly
    as well: every answer for the pool 25, 50, 75, 100, 3, 6 and target
    952 has final value 952. *)
Theorem X20_main (out1 out2 : outcome) :
  main out1 out2 ->
  (out1 = Printed [] \/
   exists v ls,
     out1 = Printed (Initial_number v
                     :: ls ++ [Final_number 462; Distance_from_goal 0]) /\
     (length ls <= 3)%nat /\ replay v 1 ls = Some 462) /\
  (out2 = Printed [] \/
   exists v ls f d w,
     out2 = Printed (Initial_number v
                     :: ls ++ [Final_number f; Distance_from_goal d;
                               Distance_after_attack w]) /\
     (1 <= length ls <= 5)%nat /\ replay v 1 ls = Some f /\
     d = Z.abs (462 - f) /\ 0 <= w) /\
  (forall m, Plain.returns cool_pool 952 m ->
             vals m 5%nat = 952 /\ dist_to_target 952 m = 0).
Proof.
  intros ((r1 & H1 & ->) & (r2 & H2 & ->)). split; [|split].
  - destruct r1 as [m| |]; auto. right.
    destruct (exact_answer example_pool 462 reach_462 m eq_refl eq_refl H1)
      as (V5 & U).
    change (used_count reach_462) with 4 in U.
    destruct H1 as (C & _). apply constraints_feasible in C.
    destruct (print_steps_replay example_pool m C 5 1 ltac:(lia) ltac:(lia))
      as (ls & P & Rp & Len).
    exists (vals m 0%nat), ls. rewrite V5 in Rp.
    split; [|split; [lia | exact Rp]].
    unfold Plain.print_model. change (range 1 6) with (seq 1 5).
    rewrite P, <- (f_first _ _ C). unfold dist_to_target.
    rewrite V5. reflexivity.
  - destruct r2 as [m| |]; auto. right.
    destruct H2 as (C & _). apply constraintsR_feasible in C.
    pose proof (r_base _ _ _ C) as F.
    destruct (print_steps_replay example_pool (base m) F 5 1
                ltac:(lia) ltac:(lia)) as (ls & P & Rp & Len).
    pose proof (used_count_last_op _ _ _ C) as U.
    pose proof (r_last _ _ _ C) as R.
    exists (vals (base m) 0%nat), ls, (vals (base m) 5%nat),
      (Z.abs (462 - vals (base m) 5%nat)), (worst_dist m).
    split; [|split; [lia|split; [exact Rp|split; [reflexivity|]]]].
    + unfold Resilient.print_model. change (range 1 6) with (seq 1 5).
      rewrite P, <- (f_first _ _ F). unfold dist_to_target.
      now rewrite Abs_abs.
    + now apply worst_dist_nonneg with example_pool 462.
  - intros m R.
    destruct (exact_answer cool_pool 952 reach_952 m eq_refl eq_refl R)
      as (V5 & _).
    split; [exact V5|]. unfold dist_to_target. rewrite V5. reflexivity.
Qed.

Lemma X20_main_witness :
  exists out1 out2,
    main out1 out2 /\
    out1 <> Printed [] /\
    (out1 = Printed [] \/
     exists v ls,
       out1 = Printed (Initial_number v
                       :: ls ++ [Final_number 462; Distance_from_goal 0]) /\
       (length ls <= 3)%nat /\ replay v 1 ls = Some 462).
Proof.
  destruct (CountingStrategy_has_answer example_pool 462) as (m & R).
  destruct (CountingStrategyResilient_has_answer example_pool 462)
    as (mr & Rr).
  assert (M : main (Plain.print_model example_pool 462 m)
                   (Resilient.print_model example_pool 462 mr)).
  { split; [exists (sat m) | exists (sat mr)]; now split. }
  exists (Plain.print_model example_pool 462 m),
         (Resilient.print_model example_pool 462 mr).
  split; [exact M|]. split.
  - destruct (report_of_model example_pool 462 m (proj1 R)) as (ls & ->).
    discriminate.
  - apply (X20_main _ _ M).
Defined.

(** ** The step formula again *)

Lemma mul_back (v n : Z) :
  n <> 0 -> mod_ (v * n) n = 0 /\ div (v * n) n = v.
Proof.
  intros Hn.
  assert (M : mod_ (v * n) n = 0).
  { unfold mod_. destruct (Z.abs_spec n) as [(_ & ->)|(_ & ->)].
    - apply Z.mod_mul. exact Hn.
    - replace (v * n) with (- v * - n) by lia. apply Z.mod_mul. lia. }
  split; [exact M|].
  pose proof (div_exact (v * n) n Hn M) as E. nia.
Qed.

(** X21.  The step formula [apply] on its own, for any operator code:
    a skipped step keeps the value; every code other than 0, 1 and 2 is
    read as a division; subtracting undoes adding and adding undoes
    subtracting; multiplying back undoes a division the formula accepts,
    and dividing undoes a multiplication by a nonzero number. *)
Theorem X21_apply_inverses (v v' n : Z) :
  (forall op, apply op v v' false n = true <-> v' = v) /\
  (forall op, op <> 0 -> op <> 1 -> op <> 2 ->
              apply op v v' true n = apply 3 v v' true n) /\
  (apply 0 v v' true n = true <-> apply 1 v' v true n = true) /\
  (apply 3 v v' true n = true -> apply 2 v' v true n = true) /\
  (n <> 0 -> apply 2 v v' true n = true -> apply 3 v' v true n = true).
Proof.
  split; [|split; [|split; [|split]]].
  - intros op. unfold apply. apply Z.eqb_eq.
  - intros op N0 N1 N2. unfold apply.
    destruct (Z.eqb_spec op 0); [lia|].
    destruct (Z.eqb_spec op 1); [lia|].
    destruct (Z.eqb_spec op 2); [lia | reflexivity].
  - rewrite !apply_executed, apply_result_add, apply_result_sub.
    intuition lia.
  - rewrite !apply_executed, apply_result_div, apply_result_mul.
    intros (E & D). destruct D as (Hz & Hm); try lia.
    pose proof (div_exact v n Hz Hm). split; [lia | intros; lia].
  - intros Hn. rewrite !apply_executed, apply_result_div, apply_result_mul.
    intros (E & _). destruct (mul_back v n Hn) as (M & Q).
    rewrite E, Q. split; [reflexivity|]. intros _ _ _. now split.
Qed.

Lemma X21_apply_inverses_witness :
  apply 2 4 12 true 3 = true /\ apply 3 12 4 true 3 = true.
Proof.
  destruct (X21_apply_inverses 4 12 3) as (_ & _ & _ & _ & H).
  split; [reflexivity|]. apply H; [lia | reflexivity].
Defined.

(** ** The order of the pool *)

Lemma reorder_indices (numbers numbers' : list Z) :
  Permutation numbers numbers' -> (length numbers <= 6)%nat ->
  exists g : Z -> Z,
    (forall i, 0 <= i < 6 ->
               0 <= g i < 6 /\
               Select (arr numbers') (g i) = Select (arr numbers) i) /\
    (forall i j, 0 <= i < 6 -> 0 <= j < 6 -> g i = g j -> i = j).
Proof.
  intros P Hlen. apply Permutation_sym in P.
  apply (Permutation_nth numbers' numbers 0) in P.
  destruct P as (El & f & Hb & Hi & Hn).
  set (n := length numbers') in *.
  exists (fun i => if i <? Z.of_nat n then Z.of_nat (f (Z.to_nat i)) else i).
  split.
  - intros i Ri. destruct (Z.ltb_spec i (Z.of_nat n)).
    + pose proof (Hb (Z.to_nat i) ltac:(lia)). split; [lia|].
      rewrite !arr_select by lia. rewrite Nat2Z.id. symmetry.
      apply Hn. lia.
    + split; [lia|]. rewrite !arr_select by lia.
      rewrite !nth_overflow by (fold n; lia). reflexivity.
  - intros i j Ri Rj.
    destruct (Z.ltb_spec i (Z.of_nat n)), (Z.ltb_spec j (Z.of_nat n));
      intros E.
    + apply Nat2Z.inj, Hi in E; lia.
    + pose proof (Hb (Z.to_nat i) ltac:(lia)). lia.
    + pose proof (Hb (Z.to_nat j) ltac:(lia)). lia.
    + exact E.
Qed.

Lemma reindex_feasible (numbers numbers' : list Z) (g : Z -> Z) (m : Model) :
  (forall i, 0 <= i < 6 ->
             0 <= g i < 6 /\
             Select (arr numbers') (g i) = Select (arr numbers) i) ->
  (forall i j, 0 <= i < 6 -> 0 <= j < 6 -> g i = g j -> i = j) ->
  feasible numbers m -> feasible numbers' (reindex g m).
Proof.
  intros G Inj F.
  constructor; unfold transition, reindex; cbn [ids steps ops vals].
  - rewrite (f_first _ _ F). symmetry. apply G, (f_ids _ _ F). lia.
  - intros i Hi. apply G, (f_ids _ _ F), Hi.
  - apply (f_ops _ _ F).
  - apply (f_prefix _ _ F).
  - intros i j Hij Si Sj E.
    apply (f_distinct _ _ F i j Hij Si Sj).
    apply Inj; trivial; apply (f_ids _ _ F); lia.
  - intros k Hk. pose proof (f_trans _ _ F k Hk) as T.
    unfold transition in T.
    destruct (G (ids m k) (f_ids _ _ F k ltac:(lia))) as (_ & ->).
    exact T.
  - apply (f_init _ _ F).
Qed.

Lemma reindexR_feasible (numbers numbers' : list Z) (target : Z)
      (g : Z -> Z) (m : ModelR) :
  (forall i, 0 <= i < 6 ->
             0 <= g i < 6 /\
             Select (arr numbers') (g i) = Select (arr numbers) i) ->
  (forall i j, 0 <= i < 6 -> 0 <= j < 6 -> g i = g j -> i = j) ->
  feasibleR numbers target m -> feasibleR numbers' target (reindexR g m).
Proof.
  intros G Inj [B H1 H2 H3 H4 H5 H6].
  constructor; trivial.
  now apply reindex_feasible with numbers.
Qed.

(** X23.  The order of the numbers in the pool does not matter.  For two
    pools of at most six entries that are permutations of each other,
    every model of the constraints for one becomes, by renaming the
    operand indices, a model for the other with the same steps, operators
    and partial results; so the answers of [CountingStrategy] for the two
    pools have the same distance (and the same step count at distance 0),
    and the answers of [CountingStrategyResilient] the same
    [worst_dist]. *)
Theorem X23_pool_order_irrelevant
        (numbers numbers' : list Z) (target : Z) :
  Permutation numbers numbers' -> (length numbers <= 6)%nat ->
  (forall m, Plain.constraints numbers m = true ->
             exists g, Plain.constraints numbers' (reindex g m) = true) /\
  (forall m m', Plain.returns numbers target m ->
                Plain.returns numbers' target m' ->
                dist_to_target target m = dist_to_target target m' /\
                (dist_to_target target m = 0 ->
                 used_count m = used_count m')) /\
  (forall m m', Resilient.returns numbers target m ->
                Resilient.returns numbers' target m' ->
                worst_dist m = worst_dist m').
Proof.
  intros P Hlen.
  destruct (reorder_indices _ _ P Hlen) as (g & G & Inj).
  assert (Hlen' : (length numbers' <= 6)%nat)
    by (now rewrite <- (Permutation_length P)).
  destruct (reorder_indices _ _ (Permutation_sym P) Hlen')
    as (g' & G' & Inj').
  split; [|split].
  - intros m C. exists g. apply constraints_feasible.
    apply (reindex_feasible numbers numbers' g m G Inj).
    now apply constraints_feasible.
  - intros m m' R R'.
    apply returns_spec in R as (C & O), R' as (C' & O').
    assert (T : Plain.constraints numbers' (reindex g m) = true).
    { apply constraints_feasible.
      apply (reindex_feasible numbers numbers' g m G Inj).
      now apply constraints_feasible. }
    assert (T' : Plain.constraints numbers (reindex g' m') = true).
    { apply constraints_feasible.
      apply (reindex_feasible numbers' numbers g' m' G' Inj').
      now apply constraints_feasible. }
    specialize (O _ T'). specialize (O' _ T). cbn zeta in O, O'.
    change (dist_to_target target (reindex g' m'))
      with (dist_to_target target m') in O.
    change (dist_to_target target (reindex g m))
      with (dist_to_target target m) in O'.
    change (used_count (reindex g' m')) with (used_count m') in O.
    change (used_count (reindex g m)) with (used_count m) in O'.
    assert (E : dist_to_target target m = dist_to_target target m') by lia.
    split; [exact E|]. intros Z0. rewrite <- E, Z0 in O, O'.
    cbn [Z.eqb] in O, O'. lia.
  - intros m m' R R'.
    apply returnsR_spec in R as (C & O), R' as (C' & O').
    assert (T : Resilient.constraints numbers' target (reindexR g m) = true).
    { apply constraintsR_feasible.
      apply (reindexR_feasible numbers numbers' target g m G Inj).
      now apply constraintsR_feasible. }
    assert (T' : Resilient.constraints numbers target (reindexR g' m')
                 = true).
    { apply constraintsR_feasible.
      apply (reindexR_feasible numbers' numbers target g' m' G' Inj').
      now apply constraintsR_feasible. }
    specialize (O _ T'). specialize (O' _ T).
    change (worst_dist (reindexR g' m')) with (worst_dist m') in O.
    change (worst_dist (reindexR g m)) with (worst_dist m) in O'.
    lia.
Qed.

Lemma X23_pool_order_irrelevant_witness :
  dist_to_target 50 pick_50 =
  dist_to_target 50 (only_step_0 (rev example_pool) 0).
Proof.
  destruct (X23_pool_order_irrelevant example_pool (rev example_pool) 50
              (Permutation_rev example_pool) ltac:(cbn; lia))
    as (_ & D & _).
  apply (D pick_50 (only_step_0 (rev example_pool) 0)).
  - exact pick_50_returns.
  - now apply returns_perfect.
Defined.

(** ** Skipped steps *)

Lemma print_steps_agree (numbers : list Z) (m m' : Model) (js : list nat) :
  (forall j, steps m' j = steps m j) ->
  (forall j, vals m' j = vals m j) ->
  (forall j, In j js -> steps m j = true ->
             ops m' (j - 1)%nat = ops m (j - 1)%nat /\
             ids m' j = ids m j) ->
  print_steps numbers m' js = print_steps numbers m js.
Proof.
  intros Hs Hv. induction js as [|j js IH]; intros H; cbn [print_steps].
  - reflexivity.
  - rewrite Hs. destruct (steps m j) eqn:E; [|reflexivity].
    destruct (H j (or_introl eq_refl) E) as (-> & ->).
    rewrite Hv, IH; [reflexivity|]. intros; apply H; trivial. now right.
Qed.

(** X22.  The operand index and the operator code of a step that is not
    executed are looked at by nothing but their range constraints: giving
    them any other values in range turns a model of the constraints of
    [CountingStrategy] into another model, with the same printed report,
    which is an answer of the optimiser whenever the first one is. *)
Theorem X22_skipped_steps_are_free
        (numbers : list Z) (target : Z) (m : Model)
        (ids' ops' : nat -> Z) :
  Plain.constraints numbers m = true ->
  (forall i, (i < 6)%nat -> 0 <= ids' i < 6) ->
  (forall i, (i < 5)%nat -> 0 <= ops' i < 4) ->
  (forall i, (i < 6)%nat -> steps m i = true -> ids' i = ids m i) ->
  (forall i, (1 <= i < 6)%nat -> steps m i = true ->
             ops' (i - 1)%nat = ops m (i - 1)%nat) ->
  let m' := mkModel ids' (steps m) ops' (vals m) in
  Plain.constraints numbers m' = true /\
  Plain.print_model numbers target m' = Plain.print_model numbers target m /\
  (Plain.returns numbers target m -> Plain.returns numbers target m').
Proof.
  intros C Ri Ro Hi Ho m'. apply constraints_feasible in C.
  assert (F' : feasible numbers m').
  { constructor; unfold transition, m'; cbn [ids steps ops vals].
    - rewrite Hi; [apply (f_first _ _ C) | lia | apply (f_init _ _ C)].
    - exact Ri.
    - exact Ro.
    - apply (f_prefix _ _ C).
    - intros i j Hij Si Sj. rewrite !Hi by (trivial; lia).
      now apply (f_distinct _ _ C).
    - intros k Hk. pose proof (f_trans _ _ C k Hk) as T.
      unfold transition in T. destruct (steps m k) eqn:E; [|exact T].
      rewrite Hi, Ho by (trivial; lia). exact T.
    - apply (f_init _ _ C). }
  split; [now apply constraints_feasible|]. split.
  - unfold Plain.print_model.
    rewrite (print_steps_agree numbers m m').
    + unfold m' at 1. cbn [ids].
      rewrite Hi; [reflexivity | lia | apply (f_init _ _ C)].
    + reflexivity.
    + reflexivity.
    + intros j Hj E. apply in_range in Hj. unfold m'. cbn [ids ops].
      split; [apply Ho | apply Hi]; trivial; lia.
  - intros R. apply returns_spec in R as (_ & O). apply returns_spec.
    split; [now apply constraints_feasible|]. exact O.
Qed.

Lemma X22_skipped_steps_are_free_witness :
  Plain.constraints example_pool
    (mkModel (fun k => if Nat.eqb k 0 then 5 else 4) (steps pick_50)
             (fun _ => 3) (vals pick_50)) = true.
Proof.
  assert (H1 : forall i, (i < 6)%nat ->
                         0 <= (if Nat.eqb i 0 then 5 else 4) < 6)
    by (intros i _; destruct (Nat.eqb i 0); lia).
  assert (H2 : forall i : nat, (i < 5)%nat -> 0 <= 3 < 4) by (intros; lia).
  assert (H3 : forall i, (i < 6)%nat -> steps pick_50 i = true ->
                         (if Nat.eqb i 0 then 5 else 4) = ids pick_50 i).
  { intros i _ E. unfold pick_50, only_step_0 in *. cbn [steps ids] in *.
    now rewrite E. }
  assert (H4 : forall i, (1 <= i < 6)%nat -> steps pick_50 i = true ->
                         3 = ops pick_50 (i - 1)%nat).
  { intros i Hi E. unfold pick_50, only_step_0 in E. cbn [steps] in E.
    destruct i; [lia | discriminate]. }
  exact (proj1 (X22_skipped_steps_are_free example_pool 50 pick_50
                  (fun k => if Nat.eqb k 0 then 5 else 4) (fun _ => 3)
                  eq_refl H1 H2 H3 H4)).
Defined.
